(** * hnl.dynamicimports.mjs: path resolution, eager completion tracking and
    lazy visibility scheduling.

    JavaScript strings are held as Rocq strings carrying their UTF-8 bytes.
    The asynchronous parts are modelled by explicit state passing: every
    handler of the source is a state transformer, and a run is a list of the
    jobs the event loop executes. *)

From stdpp Require Import base list strings gmap.
From Stdlib Require Import ZArith Ascii String.

(** ** JavaScript string primitives used by the source *)

Module JsString.

(** [stripPrefix p s] is the rest of [s] behind the prefix [p]. *)
Fixpoint stripPrefix (p s : string) : option string :=
  match p with
  | EmptyString => Some s
  | String a p' =>
      match s with
      | EmptyString => None
      | String b s' => if Ascii.eqb a b then stripPrefix p' s' else None
      end
  end.

(** The text before and after the first occurrence of [pat] in [s]. *)
Fixpoint splitFirst (pat s : string) : option (string * string) :=
  match stripPrefix pat s with
  | Some rest => Some (EmptyString, rest)
  | None =>
      match s with
      | EmptyString => None
      | String c s' =>
          match splitFirst pat s' with
          | Some (b, a) => Some (String c b, a)
          | None => None
          end
      end
  end.

(** [String.prototype.includes]. *)
Definition includes (s pat : string) : bool :=
  match splitFirst pat s with Some _ => true | None => false end.

(** GetSubstitution for a string pattern (no captures): [$$], [$&],
    [$`] and [$'] are expanded, every other character is literal. *)
Fixpoint getSubstitution (matched before after repl : string) : string :=
  match repl with
  | EmptyString => EmptyString
  | String c r =>
      if Ascii.eqb c "$" then
        match r with
        | String d r' =>
            if Ascii.eqb d "$" then String "$" (getSubstitution matched before after r')
            else if Ascii.eqb d "&" then matched +:+ getSubstitution matched before after r'
            else if Ascii.eqb d "`" then before +:+ getSubstitution matched before after r'
            else if Ascii.eqb d "'" then after +:+ getSubstitution matched before after r'
            else String c (getSubstitution matched before after r)
        | EmptyString => String c EmptyString
        end
      else String c (getSubstitution matched before after r)
  end.

(** [s.replace(pat, repl)] with a string pattern: only the first
    occurrence is replaced, and [s] is returned when there is none. *)
Definition replace (s pat repl : string) : string :=
  match splitFirst pat s with
  | None => s
  | Some (b, a) => b +:+ getSubstitution pat b a repl +:+ a
  end.

(** Number of occurrences of a character. *)
Fixpoint count (c : ascii) (s : string) : nat :=
  match s with
  | EmptyString => 0
  | String d s' => (if Ascii.eqb c d then 1 else 0) + count c s'
  end.

(** JavaScript truthiness of a string value. *)
Definition truthy (s : string) : bool :=
  match s with EmptyString => false | _ => true end.

End JsString.

(** ** Members every object literal inherits *)

Module JsObject.

(** What [String.prototype.replace] puts in place of a match when its
    second argument is a member inherited from [Object.prototype]. A
    function is called with the match, the position and the string, with
    [this] undefined, and its result is inserted as text; a value that is
    not callable is turned into text. [Echo]: the match itself
    ([Object(match)] is a String object of the match); [Literal]: a fixed
    text; [Raises]: the call throws a TypeError, since it starts by turning
    the undefined [this] into an object. *)
Inductive inherited := Echo | Literal (text : string) | Raises.

(** The members of [Object.prototype] by name. All of them are truthy. *)
Definition objectPrototype (name : string) : option inherited :=
  if String.eqb name "constructor" then Some Echo
  else if String.eqb name "toString" then Some (Literal "[object Undefined]")
  else if String.eqb name "isPrototypeOf" then Some (Literal "false")
  else if String.eqb name "__proto__" then Some (Literal "[object Object]")
  else if existsb (String.eqb name)
            ["valueOf"; "toLocaleString"; "hasOwnProperty"; "propertyIsEnumerable";
             "__defineGetter__"; "__defineSetter__";
             "__lookupGetter__"; "__lookupSetter__"]
  then Some Raises
  else None.

End JsObject.

(** ** URLSearchParams *)

Module URLSearchParams.

Definition hexDigit (n : N) : ascii :=
  if (n <? 10)%N then ascii_of_N (48 + n) else ascii_of_N (55 + n).

(** Bytes the application/x-www-form-urlencoded serializer leaves as they
    are: ASCII alphanumerics and [*], [-], [.], [_]. *)
Definition unreserved (c : ascii) : bool :=
  let n := N_of_ascii c in
  ((48 <=? n) && (n <=? 57) || (65 <=? n) && (n <=? 90)
   || (97 <=? n) && (n <=? 122)
   || (n =? 42) || (n =? 45) || (n =? 46) || (n =? 95))%N.

Definition encodeByte (c : ascii) : string :=
  if Ascii.eqb c " " then "+"
  else if unreserved c then String c EmptyString
  else let n := N_of_ascii c in
       String "%" (String (hexDigit (n / 16)) (String (hexDigit (n mod 16)) EmptyString)).

Fixpoint encode (s : string) : string :=
  match s with
  | EmptyString => EmptyString
  | String c s' => encodeByte c +:+ encode s'
  end.

Definition t := list (string * string).

(** [new URLSearchParams()] and [params.append(name, value)]. *)
Definition empty : t := [].
Definition append (params : t) (name value : string) : t := params ++ [(name, value)].

(** [params.toString()]. *)
Fixpoint toString (params : t) : string :=
  match params with
  | [] => EmptyString
  | [(n, v)] => encode n +:+ "=" +:+ encode v
  | (n, v) :: rest => encode n +:+ "=" +:+ encode v +:+ "&" +:+ toString rest
  end.

End URLSearchParams.

(** ** Path resolver: [rewritePath] *)

Module PathResolver.
Import JsString JsObject.

(** The ambient values [rewritePath] reads: the alias table, the optional
    global [SITE_NONCE], [window.location.search] and the value the next
    call of [window.crypto.randomUUID()] returns. The table holds the
    own entries of the object literal, names mapped to prefix strings; what
    the object inherits from [Object.prototype] is [objectPrototype]. *)
Record env := {
  dynImportPaths : gmap string string;
  SITE_NONCE : option string;
  location_search : string;
  randomUUID : string
}.

(** The alias table as the source declares it. *)
Definition dynImportPaths_src : gmap string string :=
  {[ "assets" := "https://code.hnldesign.nl/js-modules/" ]}.

(** [.] of the regular expression matches everything but a line
    terminator: LF, CR, U+2028 and U+2029 (E2 80 A8 and E2 80 A9). *)
Definition lineTerminatorAt (s : string) : bool :=
  match s with
  | EmptyString => false
  | String c r =>
      Ascii.eqb c "010" || Ascii.eqb c "013"
      || (Ascii.eqb c "226" &&
          match r with
          | String d (String e _) =>
              Ascii.eqb d "128" && (Ascii.eqb e "168" || Ascii.eqb e "169")
          | _ => false
          end)
  end.

(** The lazy group [(.*?)] followed by [%]: the text up to the next [%],
    when no line terminator comes first. *)
Fixpoint lazyUntilPercent (s : string) : option string :=
  match s with
  | EmptyString => None
  | String c s' =>
      if Ascii.eqb c "%" then Some EmptyString
      else if lineTerminatorAt s then None
      else match lazyUntilPercent s' with
           | Some n => Some (String c n)
           | None => None
           end
  end.

(** [new RegExp(/^%(.*?)%/gi).exec(uri)]: the whole match and group 1. *)
Definition execCustomPath (uri : string) : option (string * string) :=
  match uri with
  | String c rest =>
      if Ascii.eqb c "%" then
        match lazyUntilPercent rest with
        | Some name => Some ("%" +:+ name +:+ "%", name)
        | None => None
        end
      else None
  | EmptyString => None
  end.

(** The value [dynImportPaths[customPath[1]]] when it is truthy: the prefix
    of an own entry, or a member inherited from [Object.prototype] when the
    table has no own entry of that name. *)
Inductive aliasValue := Registered (prefix : string) | Inherited (m : inherited).

(** [customPath && dynImportPaths[customPath[1]]]: the match and the value
    found, when the condition of the [if] is truthy. An own entry hides an
    inherited member, also when its prefix is the empty, falsy string. *)
Definition aliasOf (e : env) (uri : string) : option (string * aliasValue) :=
  match execCustomPath uri with
  | Some (whole, name) =>
      match dynImportPaths e !! name with
      | Some prefix => if truthy prefix then Some (whole, Registered prefix) else None
      | None =>
          match objectPrototype name with
          | Some m => Some (whole, Inherited m)
          | None => None
          end
      end
  | None => None
  end.

(** [s.replace(pat, value)] for an inherited [value]: nothing happens, and
    nothing is called, when [pat] does not occur. [None]: a TypeError. *)
Definition replaceInherited (s pat : string) (m : inherited) : option string :=
  match splitFirst pat s with
  | None => Some s
  | Some (b, a) =>
      match m with
      | Echo => Some (b +:+ pat +:+ a)
      | Literal text => Some (b +:+ text +:+ a)
      | Raises => None
      end
  end.

(** The two locals of [rewritePath] at its [return]: [uri] and [params].
    [None]: the call of [replace] has thrown. *)
Definition rewriteParts (e : env) (uri : string)
  : option (string * URLSearchParams.t) :=
  let params := URLSearchParams.empty in
  match
    match aliasOf e uri with
    | Some (whole, Registered prefix) =>
        Some (replace uri (whole +:+ "/") prefix, params)
    | Some (whole, Inherited m) =>
        match replaceInherited uri (whole +:+ "/") m with
        | Some uri => Some (uri, params)
        | None => None
        end
    | None =>
        let params :=
          match SITE_NONCE e with
          | Some nonce => URLSearchParams.append params "nonce" nonce
          | None => params
          end in
        Some (replace uri "./" "./../", params)
    end
  with
  | Some (uri, params) =>
      let params :=
        if includes (location_search e) "debug" then
          URLSearchParams.append
            (URLSearchParams.append params "debug" "true") "random" (randomUUID e)
        else params in
      Some (uri, params)
  | None => None
  end.

(** [rewritePath]; [None] when it throws. *)
Definition rewritePath (e : env) (uri : string) : option string :=
  match rewriteParts e uri with
  | Some (uri, params) => Some (uri +:+ "?" +:+ URLSearchParams.toString params)
  | None => None
  end.

(** A delimited alias token wraps a name the lazy group can capture: no
    [%] and no line terminator inside. *)
Fixpoint aliasName (s : string) : bool :=
  match s with
  | EmptyString => true
  | String c s' => negb (Ascii.eqb c "%") && negb (lineTerminatorAt s) && aliasName s'
  end.

(** The parameters the debug branch appends. *)
Definition debugParams (e : env) : URLSearchParams.t :=
  if includes (location_search e) "debug"
  then [("debug", "true"); ("random", randomUUID e)]
  else [].

(** The parameters [rewritePath] has collected at its [return]: the nonce
    on the relative branch only, then those of the debug branch. *)
Definition queryParams (e : env) (key : string) : URLSearchParams.t :=
  match aliasOf e key with
  | Some _ => debugParams e
  | None =>
      match SITE_NONCE e with
      | Some nonce => ("nonce", nonce) :: debugParams e
      | None => debugParams e
      end
  end.

(** The text [rewritePath] puts in front of the appended [?]; [None] when
    the replacement throws. *)
Definition rewrittenUri (e : env) (key : string) : option string :=
  match aliasOf e key with
  | Some (whole, Registered prefix) => Some (replace key (whole +:+ "/") prefix)
  | Some (whole, Inherited m) => replaceInherited key (whole +:+ "/") m
  | None => Some (replace key "./" "./../")
  end.

(** The keys on which [rewritePath] throws: the token names an inherited
    method that throws when called without [this], no own entry hides it,
    and the token followed by [/] occurs in the key. *)
Definition raisesOn (e : env) (key : string) : bool :=
  match aliasOf e key with
  | Some (whole, Inherited Raises) => includes key (whole +:+ "/")
  | _ => false
  end.

(** The key [%name%/rest]. *)
Definition aliasedKey (name rest : string) : string :=
  "%" +:+ name +:+ "%/" +:+ rest.

End PathResolver.

(** ** Query merging, as the specification words it *)

Module PathSpec.
Import JsString PathResolver.

(** The query of a URI: the text behind its first [?]. *)
Definition queryOf (u : string) : string :=
  match splitFirst "?" u with
  | Some (_, q) => q
  | None => EmptyString
  end.

Fixpoint splitOn (sep : ascii) (acc s : string) : list string :=
  match s with
  | EmptyString => [acc]
  | String c s' =>
      if Ascii.eqb c sep then acc :: splitOn sep EmptyString s'
      else splitOn sep (acc +:+ String c EmptyString) s'
  end.

(** The [name=value] components of the query of a URI. *)
Definition queryComponents (u : string) : list string :=
  filter (fun x => truthy x = true) (splitOn "&" EmptyString (queryOf u)).

(** Follows the specification: a string is returned, and the components
    the resolver adds are merged with the ones the key already has. *)
Definition mergesQuery (e : env) (key : string) : Prop :=
  match rewriteParts e key with
  | Some (uri, params) =>
      queryComponents (uri +:+ "?" +:+ URLSearchParams.toString params)
      = queryComponents key
        ++ queryComponents ("?" +:+ URLSearchParams.toString params)
  | None => False
  end.

End PathSpec.

(** ** The host environment seen by the orchestrator *)

Module Host.

(** DOM elements are opaque references. *)
Definition element := nat.

(** The [init] export of a module namespace: absent (or not callable),
    a function that returns, or a function that throws synchronously. *)
Inductive initHook := NoInit | InitReturns | InitThrows.

(** What the orchestrator reads of a loaded module namespace. *)
Record moduleNs := { mod_NAME : option string; mod_init : initHook }.

(** How the promise of [import(path)] settles. *)
Inductive settlement := Fulfilled (m : moduleNs) | Rejected.

Inductive message :=
| Importing (key : string)
| Imported
| Initializing (n : nat)
| AllFinished
| Snapshot
| ElementVisible
| ImportedLazy
| InitializingLazy (n : nat)
| Caught.

(** Calls of [hnlLogger.info] and [hnlLogger.error]. *)
Inductive logEntry :=
| LogInfo (label : string) (msg : message)
| LogError (label : string) (msg : message).

Definition NAME : string := "dynImports".

Fixpoint lastSegmentFrom (acc s : string) : string :=
  match s with
  | EmptyString => acc
  | String c s' =>
      if Ascii.eqb c "/" then lastSegmentFrom EmptyString s'
      else lastSegmentFrom (acc +:+ String c EmptyString) s'
  end.

(** [key.split('/').splice(-1)] used as a label. *)
Definition lastSegment (key : string) : string := lastSegmentFrom EmptyString key.

Definition isFulfilled (r : settlement) : bool :=
  match r with Fulfilled _ => true | Rejected => false end.

End Host.

(** ** Eager loads and the completion counter of [dynImports] *)

Module Eager.
Import Host.

(** One entry of [modules] with the way its [import] settles. *)
Record load := { key : string; elements : list element; result : settlement }.

(** What the scanner hands to its callback, as far as the eager part reads
    it: [totals] and the entries of [modules] in iteration order. The
    entries are those whose [import] is issued, that is, for whose keys
    [rewritePath] returns. *)
Record batch := { totals : Z; loads : list load }.

Record state := {
  c : Z;
  log : list logEntry;
  initCalls : list (string * list element);
  callbackCalls : nat
}.

Definition say (l : logEntry) (s : state) : state :=
  {| c := c s; log := log s ++ [l]; initCalls := initCalls s;
     callbackCalls := callbackCalls s |}.

Definition callInit (k : string) (els : list element) (s : state) : state :=
  {| c := c s; log := log s; initCalls := initCalls s ++ [(k, els)];
     callbackCalls := callbackCalls s |}.

Definition decrement (s : state) : state :=
  {| c := (c s - 1)%Z; log := log s; initCalls := initCalls s;
     callbackCalls := callbackCalls s |}.

Definition callCallback (s : state) : state :=
  {| c := c s; log := log s; initCalls := initCalls s;
     callbackCalls := S (callbackCalls s) |}.

(** The function passed to [.then]. *)
Definition thenHandler (l : load) (m : moduleNs) (s : state) : state :=
  let name := match mod_NAME m with Some n => n | None => lastSegment (key l) end in
  let s := say (LogInfo name Imported) s in
  let s :=
    match mod_init m with
    | NoInit => s
    | InitReturns =>
        let s := say (LogInfo name (Initializing (List.length (elements l)))) s in
        callInit (key l) (elements l) s
    | InitThrows =>
        let s := say (LogInfo name (Initializing (List.length (elements l)))) s in
        let s := callInit (key l) (elements l) s in
        say (LogError name Caught) s
    end in
  decrement s.

(** The function passed to [.catch]. *)
Definition catchHandler (s : state) : state := say (LogError NAME Caught) s.

(** The function passed to [.finally]; [!c] holds for the number 0 only. *)
Definition finallyHandler (s : state) : state :=
  if (c s =? 0)%Z then
    let s := say (LogInfo NAME AllFinished) s in
    let s := say (LogInfo NAME Snapshot) s in
    callCallback s
  else s.

(** The three reaction jobs of [import(path).then(f).catch(g).finally(h)].
    Each is a job of its own on the microtask queue. *)
Inductive stage := OnThen | OnCatch | OnFinally.

Definition job := (nat * stage)%type.

(** A fulfilled promise runs [f] and passes through [.catch]; a rejected one
    passes through [.then] and runs [g]; [h] runs in both cases. *)
Definition runJob (b : batch) (j : job) (s : state) : state :=
  match loads b !! j.1 with
  | None => s
  | Some l =>
      match j.2, result l with
      | OnThen, Fulfilled m => thenHandler l m s
      | OnThen, Rejected => s
      | OnCatch, Fulfilled _ => s
      | OnCatch, Rejected => catchHandler s
      | OnFinally, _ => finallyHandler s
      end
  end.

Definition runJobs (b : batch) (sched : list job) (s : state) : state :=
  foldl (fun s j => runJob b j s) s sched.

(** The synchronous part of the scanner callback: [let c = totals] and one
    "Importing" notice per entry of [modules]. *)
Definition start (b : batch) : state :=
  {| c := totals b;
     log := map (fun l => LogInfo NAME (Importing (key l))) (loads b);
     initCalls := []; callbackCalls := 0 |}.

Definition dynImports (b : batch) (sched : list job) : state :=
  runJobs b sched (start b).

(** The jobs of load [i] in the order the queue runs them. *)
Definition chain (i : nat) : list job := [(i, OnThen); (i, OnCatch); (i, OnFinally)].

(** Loads settling one after the other, in the order [order]. *)
Definition oneByOne (order : list nat) : list job := flat_map chain order.

Definition isThenOf (b : batch) (j : job) : bool :=
  match j.2, loads b !! j.1 with
  | OnThen, Some l => isFulfilled (result l)
  | _, _ => false
  end.

(** Every load named in [order] is fulfilled. *)
Definition allFulfilled (b : batch) (order : list nat) : Prop :=
  forall i, i ∈ order -> exists l m, loads b !! i = Some l /\ result l = Fulfilled m.

(** How many jobs of [sched] run a success handler, hence decrement [c]. *)
Definition thenCount (b : batch) (sched : list job) : nat :=
  List.length (filter (fun j => isThenOf b j = true) sched).

End Eager.

(** ** Deferred loads: [watchModules] and the shared [deferredModules] *)

Module Lazy.
Import Host.

(** [deferredModules] is the one object shared by all groups; [listeners]
    holds the keys whose [watchModules] is subscribed to [docShift];
    [watches] the calls of [isVisible] whose callback has not run yet;
    [imports] the keys of the [import()] calls issued so far, in order, and
    [settled] the positions of those that have settled; [fired] the keys
    whose [watchModules] has been invoked, one entry per invocation. *)
Record state := {
  deferredModules : gmap string (list element);
  listeners : gset string;
  watches : list (string * element);
  imports : list string;
  settled : gset nat;
  fired : list string;
  initCalls : list (string * list element);
  log : list logEntry
}.

Inductive event :=
| DocShift
| Visible (k : string) (e : element)
| Settle (n : nat) (r : settlement).

Definition say (l : logEntry) (s : state) : state :=
  {| deferredModules := deferredModules s; listeners := listeners s;
     watches := watches s; imports := imports s; settled := settled s;
     fired := fired s; initCalls := initCalls s; log := log s ++ [l] |}.

Definition callInit (k : string) (els : list element) (s : state) : state :=
  {| deferredModules := deferredModules s; listeners := listeners s;
     watches := watches s; imports := imports s; settled := settled s;
     fired := fired s; initCalls := initCalls s ++ [(k, els)]; log := log s |}.

(** [import(rewritePath(key))]: a new pending load of [k]. *)
Definition issueImport (k : string) (s : state) : state :=
  {| deferredModules := deferredModules s; listeners := listeners s;
     watches := watches s; imports := imports s ++ [k]; settled := settled s;
     fired := fired s; initCalls := initCalls s; log := log s |}.

(** [delete deferredModules[key]]. *)
Definition deleteKey (k : string) (s : state) : state :=
  {| deferredModules := delete k (deferredModules s); listeners := listeners s;
     watches := watches s; imports := imports s; settled := settled s;
     fired := fired s; initCalls := initCalls s; log := log s |}.

(** Modelled from the spec: [eventHandler.removeListener('docShift',
    watchModules)] of the absent event bus, which drops the subscription of
    the handler of group [k]. *)
Definition removeListener (k : string) (s : state) : state :=
  {| deferredModules := deferredModules s; listeners := listeners s ∖ {[k]};
     watches := watches s; imports := imports s; settled := settled s;
     fired := fired s; initCalls := initCalls s; log := log s |}.

(** Modelled from the spec: [isVisible(element, onVisible)] of the absent
    helpers module, which calls [onVisible] once when the element becomes
    visible; until then the call is a pending watch. *)
Definition isVisible (k : string) (e : element) (s : state) : state :=
  {| deferredModules := deferredModules s; listeners := listeners s;
     watches := watches s ++ [(k, e)]; imports := imports s; settled := settled s;
     fired := fired s; initCalls := initCalls s; log := log s |}.

Definition markSettled (n : nat) (s : state) : state :=
  {| deferredModules := deferredModules s; listeners := listeners s;
     watches := watches s; imports := imports s; settled := {[n]} ∪ settled s;
     fired := fired s; initCalls := initCalls s; log := log s |}.

Definition markFired (k : string) (s : state) : state :=
  {| deferredModules := deferredModules s; listeners := listeners s;
     watches := watches s; imports := imports s; settled := settled s;
     fired := fired s ++ [k]; initCalls := initCalls s; log := log s |}.

Fixpoint removeOne (w : string * element) (ws : list (string * element))
  : list (string * element) :=
  match ws with
  | [] => []
  | x :: ws' => if decide (x = w) then ws' else x :: removeOne w ws'
  end.

Definition dropWatch (w : string * element) (s : state) : state :=
  {| deferredModules := deferredModules s; listeners := listeners s;
     watches := removeOne w (watches s); imports := imports s; settled := settled s;
     fired := fired s; initCalls := initCalls s; log := log s |}.

(** How often [watchModules] of group [k] has been invoked. *)
Definition firedCount (k : string) (s : state) : nat :=
  List.length (filter (fun x => x = k) (fired s)).

(** How many loads of [k] have been issued. *)
Definition importCount (k : string) (s : state) : nat :=
  List.length (filter (fun x => x = k) (imports s)).

(** Once a load of [k] is issued, the handler of [k] is unsubscribed. *)
Definition importsUnsubscribed (s : state) : Prop :=
  forall k, k ∈ imports s -> k ∉ listeners s.

(** [deferredModules[key]] as the condition of an [if]: truthy for an own
    entry, whose value is a list of elements, and for a key that names a
    member the object inherits from [Object.prototype]. *)
Definition guard (k : string) (s : state) : bool :=
  match deferredModules s !! k with
  | Some _ => true
  | None =>
      match JsObject.objectPrototype k with
      | Some _ => true
      | None => false
      end
  end.

Section Group.

(** The deferred mapping the scanner supplied; the [elements] every closure
    of a group holds is its entry here. *)
Variable groups : gmap string (list element).

(** What [rewritePath] reads. *)
Variable cfg : PathResolver.env.

Definition elementsOf (k : string) : list element := default [] (groups !! k).

(** [watchModules] of group [k]: one [isVisible] call per element. *)
Definition watchModules (k : string) (s : state) : state :=
  foldl (fun s e => isVisible k e s) (markFired k s) (elementsOf k).

(** The callback handed to [isVisible]. When [rewritePath] throws, the
    callback is left at once: no load is issued and [removeListener] is not
    reached. *)
Definition onVisible (k : string) (s : state) : state :=
  if guard k s then
    let s := say (LogInfo NAME ElementVisible) s in
    match PathResolver.rewritePath cfg k with
    | Some _ => removeListener k (issueImport k s)
    | None => s
    end
  else removeListener k s.

(** The callback issues a load: its guard is open and [rewritePath]
    returns. *)
Definition issues (k : string) (s : state) : bool :=
  match PathResolver.rewritePath cfg k with
  | Some _ => guard k s
  | None => false
  end.

(** The callback is left by the TypeError of [rewritePath]. *)
Definition aborts (k : string) (s : state) : bool :=
  match PathResolver.rewritePath cfg k with
  | Some _ => false
  | None => guard k s
  end.

(** A load is only ever issued with a path [rewritePath] returned. *)
Definition importsResolved (s : state) : Prop :=
  forall k, k ∈ imports s -> PathResolver.rewritePath cfg k <> None.

(** The function passed to [.then] of the lazy import. *)
Definition thenHandler (k : string) (m : moduleNs) (s : state) : state :=
  let name :=
    match mod_NAME m with
    | Some n => if JsString.truthy n then n else lastSegment k
    | None => lastSegment k
    end in
  let s := say (LogInfo name ImportedLazy) s in
  let s :=
    match mod_init m with
    | NoInit => s
    | InitReturns =>
        let s := say (LogInfo name (InitializingLazy (List.length (elementsOf k)))) s in
        callInit k (elementsOf k) s
    | InitThrows =>
        let s := say (LogInfo name (InitializingLazy (List.length (elementsOf k)))) s in
        let s := callInit k (elementsOf k) s in
        say (LogError name Caught) s
    end in
  deleteKey k s.

(** The function passed to [.catch] of the lazy import. *)
Definition catchHandler (s : state) : state := say (LogError NAME Caught) s.

Definition settle (k : string) (r : settlement) (s : state) : state :=
  match r with
  | Fulfilled m => thenHandler k m s
  | Rejected => catchHandler s
  end.

(** One turn of the event loop. A [docShift] signal runs every subscribed
    [watchModules]; [Visible k e] runs one pending visibility callback;
    [Settle n r] settles the [n]-th issued import. [None]: the event cannot
    happen in this state. *)
Definition step (s : state) (ev : event) : option state :=
  match ev with
  | DocShift => Some (foldl (fun s k => watchModules k s) s (elements (listeners s)))
  | Visible k e =>
      if bool_decide ((k, e) ∈ watches s)
      then Some (onVisible k (dropWatch (k, e) s))
      else None
  | Settle n r =>
      match imports s !! n with
      | Some k =>
          if bool_decide (n ∈ settled s) then None
          else Some (settle k r (markSettled n s))
      | None => None
      end
  end.

Fixpoint run (s : state) (tr : list event) : option state :=
  match tr with
  | [] => Some s
  | ev :: tr' =>
      match step s ev with
      | Some s' => run s' tr'
      | None => None
      end
  end.

(** The second [objForEach] of [dynImports]: every deferred key gets its
    [watchModules] subscribed to [docShift]. *)
Definition start : state :=
  {| deferredModules := groups; listeners := dom groups; watches := [];
     imports := []; settled := ∅; fired := []; initCalls := []; log := [] |}.

End Group.

End Lazy.

(** ** Concrete inputs *)

Module Inputs.
Import Host PathResolver.

(** A configuration that registers [assets] for
    [https://example.com/modules/]. *)
Definition exampleEnv (nonce : option string) (search : string) : env :=
  {| dynImportPaths := {[ "assets" := "https://example.com/modules/" ]};
     SITE_NONCE := nonce; location_search := search; randomUUID := "u-1" |}.

Definition plainModule : moduleNs := {| mod_NAME := None; mod_init := InitReturns |}.
Definition throwingModule : moduleNs := {| mod_NAME := Some "X"; mod_init := InitThrows |}.

(** One eager entry whose load fails. *)
Definition oneFailing : Eager.batch :=
  {| Eager.totals := 1;
     Eager.loads := [ {| Eager.key := "./a.mjs"; Eager.elements := [1];
                         Eager.result := Rejected |} ] |}.

(** Two eager entries: the first loads and its [init] throws, the load of
    the second fails. *)
Definition throwingAndFailing : Eager.batch :=
  {| Eager.totals := 2;
     Eager.loads := [ {| Eager.key := "./x.mjs"; Eager.elements := [1; 2];
                         Eager.result := Fulfilled throwingModule |};
                      {| Eager.key := "./b.mjs"; Eager.elements := [3];
                         Eager.result := Rejected |} ] |}.

(** Two eager entries that both load. *)
Definition twoLoading : Eager.batch :=
  {| Eager.totals := 2;
     Eager.loads := [ {| Eager.key := "./x.mjs"; Eager.elements := [1; 2];
                         Eager.result := Fulfilled throwingModule |};
                      {| Eager.key := "./a.mjs"; Eager.elements := [3];
                         Eager.result := Fulfilled plainModule |} ] |}.

(** One deferred group of two elements. *)
Definition oneGroup : gmap string (list element) := {[ "./lazy.mjs" := [1; 2] ]}.

(** The configuration of the source, without nonce and debug flag. *)
Definition sourceEnv : env :=
  {| dynImportPaths := dynImportPaths_src; SITE_NONCE := None;
     location_search := EmptyString; randomUUID := "u-1" |}.

(** The state a trace of events leads to from the start, for a trace that
    can happen. *)
Definition stateAfterIn (groups : gmap string (list element))
    (tr : list Lazy.event) : Lazy.state :=
  default (Lazy.start groups) (Lazy.run groups sourceEnv (Lazy.start groups) tr).

Definition stateAfter (tr : list Lazy.event) : Lazy.state := stateAfterIn oneGroup tr.

(** One deferred group whose key begins with the token [%hasOwnProperty%]. *)
Definition throwingGroup : gmap string (list element) :=
  {[ "%hasOwnProperty%/x.mjs" := [1; 2] ]}.

End Inputs.

(** ** Further vocabulary for runs and configurations *)

Module PathCases.
Import JsString PathResolver.

(** The parameter the relative-path branch appends for [SITE_NONCE]. *)
Definition nonceParams (e : env) : URLSearchParams.t :=
  match SITE_NONCE e with
  | Some nonce => [("nonce", nonce)]
  | None => []
  end.

End PathCases.

Module EagerRuns.
Import Host Eager.

(** How many jobs of [sched] run the [finally] handler of a load of [b]. *)
Definition isFinallyOf (b : batch) (j : job) : bool :=
  match j.2, loads b !! j.1 with
  | OnFinally, Some _ => true
  | _, _ => false
  end.

Definition finallyCount (b : batch) (sched : list job) : nat :=
  List.length (filter (fun j => isFinallyOf b j = true) sched).

(** The call of [init] a job makes, if it makes one: the success handler of
    a fulfilled load whose module exports a callable [init]. *)
Definition initCallOf (b : batch) (j : job) : option (string * list element) :=
  match j.2, loads b !! j.1 with
  | OnThen, Some l =>
      match result l with
      | Fulfilled m =>
          match mod_init m with
          | NoInit => None
          | _ => Some (key l, elements l)
          end
      | Rejected => None
      end
  | _, _ => None
  end.

(** The same batch with every throwing [init] replaced by one that returns. *)
Definition quietHook (h : initHook) : initHook :=
  match h with InitThrows => InitReturns | _ => h end.

Definition quietLoad (l : load) : load :=
  {| key := key l; elements := elements l;
     result := match result l with
               | Fulfilled m =>
                   Fulfilled {| mod_NAME := mod_NAME m;
                                mod_init := quietHook (mod_init m) |}
               | Rejected => Rejected
               end |}.

Definition quietBatch (b : batch) : batch :=
  {| totals := totals b; loads := quietLoad <$> loads b |}.

End EagerRuns.

Module LazyRuns.
Import Host Lazy.

(** How many visibility callbacks a trace runs. *)
Fixpoint visibleCount (tr : list event) : nat :=
  match tr with
  | [] => 0
  | Visible _ _ :: tr' => S (visibleCount tr')
  | _ :: tr' => visibleCount tr'
  end.

(** The group an event belongs to: the group of the element that reports
    visible, or of the import that settles; a [docShift] signal belongs to
    none. *)
Definition eventKey (s : state) (ev : event) : option string :=
  match ev with
  | DocShift => None
  | Visible k _ => Some k
  | Settle n _ => imports s !! n
  end.

(** How many visibility callbacks of group [k] are pending. *)
Definition watchCount (k : string) (s : state) : nat :=
  List.length (filter (fun w : string * element => w.1 = k) (watches s)).

(** What a run keeps of the mapping [groups] it started from: the entries
    of the registry are entries of [groups], and only keys of [groups] are
    subscribed or loaded. *)
Definition withinGroups (groups : gmap string (list element)) (s : state) : Prop :=
  (forall k els, deferredModules s !! k = Some els -> groups !! k = Some els)
  /\ listeners s ⊆ dom groups
  /\ (forall k, k ∈ imports s -> k ∈ dom groups).

End LazyRuns.

(** * Properties *)

#[local] Arguments String.append !_ _ / : simpl nomatch.

(** ** Strings *)

Module JsStringFacts.
Import JsString.

Lemma append_nil_r (s : string) : s +:+ EmptyString = s.
Proof. induction s as [|c s IH]; simpl; congruence. Qed.

Lemma append_assoc (a b d : string) : (a +:+ b) +:+ d = a +:+ b +:+ d.
Proof. induction a as [|c a IH]; simpl; congruence. Qed.

Lemma count_app (c : ascii) (a b : string) :
  count c (a +:+ b) = count c a + count c b.
Proof. induction a as [|d a IH]; simpl; [reflexivity | rewrite IH; lia]. Qed.

Lemma stripPrefix_app (p rest : string) : stripPrefix p (p +:+ rest) = Some rest.
Proof.
  induction p as [|a p IH]; simpl; [reflexivity |].
  now rewrite Ascii.eqb_refl.
Qed.

Lemma stripPrefix_sound (p s rest : string) :
  stripPrefix p s = Some rest -> s = p +:+ rest.
Proof.
  revert s; induction p as [|a p IH]; intros s H; simpl in *.
  - congruence.
  - destruct s as [|b s]; [discriminate |].
    destruct (Ascii.eqb_spec a b) as [->|]; [| discriminate].
    now rewrite (IH _ H).
Qed.

Lemma splitFirst_sound (pat s b a : string) :
  splitFirst pat s = Some (b, a) -> s = b +:+ pat +:+ a.
Proof.
  revert b; induction s as [|c s IH]; intros b H; simpl in H.
  - destruct (stripPrefix pat EmptyString) eqn:E; [| discriminate].
    injection H as <- <-. simpl. now apply stripPrefix_sound.
  - destruct (stripPrefix pat (String c s)) eqn:E.
    + injection H as <- <-. simpl. now apply stripPrefix_sound.
    + destruct (splitFirst pat s) as [[b' a']|] eqn:E'; [| discriminate].
      injection H as <- <-. simpl. now rewrite (IH b' eq_refl).
Qed.

Lemma splitFirst_prefix (pat rest : string) :
  splitFirst pat (pat +:+ rest) = Some (EmptyString, rest).
Proof.
  destruct (pat +:+ rest) eqn:E; simpl; rewrite <- E, stripPrefix_app; reflexivity.
Qed.

(** A replacement text without [$] is inserted as it is. *)
Lemma getSubstitution_plain (m b a repl : string) :
  count "$" repl = 0 -> getSubstitution m b a repl = repl.
Proof.
  induction repl as [|c r IH]; cbn [count getSubstitution]; [reflexivity |].
  rewrite (Ascii.eqb_sym c).
  destruct (Ascii.eqb "$" c); [discriminate |].
  intros H. now rewrite IH.
Qed.

Lemma replace_prefix (pat rest repl : string) :
  count "$" repl = 0 -> replace (pat +:+ rest) pat repl = repl +:+ rest.
Proof.
  intros H. unfold replace. rewrite splitFirst_prefix. simpl.
  now rewrite getSubstitution_plain.
Qed.

(** Rewriting [./] to [./../] neither adds nor removes a [?]. *)
Lemma replace_rebase_count (s : string) :
  count "?" (replace s "./" "./../") = count "?" s.
Proof.
  unfold replace. destruct (splitFirst "./" s) as [[b a]|] eqn:E; [| reflexivity].
  apply splitFirst_sound in E. subst s.
  rewrite !count_app. simpl. lia.
Qed.

End JsStringFacts.

Module URLSearchParamsFacts.
Import JsString JsStringFacts URLSearchParams.

Lemma encodeByte_no_question (c : ascii) : count "?" (encodeByte c) = 0.
Proof.
  destruct c as [b0 b1 b2 b3 b4 b5 b6 b7].
  destruct b0, b1, b2, b3, b4, b5, b6, b7; vm_compute; reflexivity.
Qed.

Lemma encode_no_question (s : string) : count "?" (encode s) = 0.
Proof.
  induction s as [|c s IH]; simpl; [reflexivity |].
  now rewrite count_app, encodeByte_no_question, IH.
Qed.

(** The serialized parameters never contain a [?] of their own. *)
Lemma toString_no_question (ps : t) : count "?" (toString ps) = 0.
Proof.
  induction ps as [|[n v] ps IH]; [reflexivity |].
  destruct ps as [|p ps].
  - change (toString [(n, v)]) with (encode n +:+ "=" +:+ encode v).
    rewrite !count_app, !encode_no_question. reflexivity.
  - change (toString ((n, v) :: p :: ps))
      with (encode n +:+ "=" +:+ encode v +:+ "&" +:+ toString (p :: ps)).
    rewrite !count_app, !encode_no_question, IH. reflexivity.
Qed.

End URLSearchParamsFacts.

(** ** Path resolution *)

Module PathResolverFacts.
Import JsString JsStringFacts URLSearchParams URLSearchParamsFacts PathResolver.

Lemma lineTerminatorAt_before_percent (c : ascii) (s rest : string) :
  lineTerminatorAt (String c s) = false ->
  lineTerminatorAt (String c (s +:+ String "%" rest)) = false.
Proof.
  unfold lineTerminatorAt.
  destruct (Ascii.eqb c "010"), (Ascii.eqb c "013"), (Ascii.eqb c "226");
    cbn [orb andb]; try discriminate; try reflexivity.
  destruct s as [|d [|x s]]; cbn [String.append]; intros H.
  - now destruct rest.
  - apply andb_false_r.
  - exact H.
Qed.

Lemma lazyUntilPercent_name (name rest : string) :
  aliasName name = true -> lazyUntilPercent (name +:+ String "%" rest) = Some name.
Proof.
  induction name as [|c s IH]; cbn [aliasName]; intros H.
  - reflexivity.
  - apply andb_true_iff in H as [H Hs]. apply andb_true_iff in H as [Hc Hl].
    apply negb_true_iff in Hc, Hl.
    cbn [String.append lazyUntilPercent].
    rewrite Hc, (lineTerminatorAt_before_percent _ _ _ Hl), (IH Hs). reflexivity.
Qed.

Lemma execCustomPath_token (name rest : string) :
  aliasName name = true ->
  execCustomPath ("%" +:+ name +:+ "%" +:+ rest) = Some ("%" +:+ name +:+ "%", name).
Proof.
  intros H. cbn [String.append execCustomPath]. rewrite Ascii.eqb_refl.
  now rewrite (lazyUntilPercent_name name rest H).
Qed.

(** A key that begins with the token of a registered, non-empty prefix takes
    the alias branch. *)
Lemma aliasOf_registered (e : env) (name prefix rest : string) :
  aliasName name = true ->
  dynImportPaths e !! name = Some prefix ->
  truthy prefix = true ->
  aliasOf e ("%" +:+ name +:+ "%" +:+ rest)
  = Some ("%" +:+ name +:+ "%", Registered prefix).
Proof.
  intros Hn Hp Ht. unfold aliasOf.
  now rewrite (execCustomPath_token name rest Hn), Hp, Ht.
Qed.

Lemma aliasedKey_split (name rest : string) :
  aliasedKey name rest = ("%" +:+ name +:+ "%") +:+ "/" +:+ rest.
Proof. unfold aliasedKey. now rewrite !append_assoc. Qed.

Lemma aliasedKey_pattern (name rest : string) :
  aliasedKey name rest = (("%" +:+ name +:+ "%") +:+ "/") +:+ rest.
Proof. unfold aliasedKey. now rewrite !append_assoc. Qed.

(** All branches in one equation. *)
Lemma rewriteParts_eq (e : env) (key : string) :
  rewriteParts e key = (fun u => (u, queryParams e key)) <$> rewrittenUri e key.
Proof.
  unfold rewriteParts, rewrittenUri, queryParams, debugParams, append, empty.
  destruct (aliasOf e key) as [[whole [prefix|m]]|].
  - now destruct (includes (location_search e) "debug").
  - destruct (replaceInherited key (whole +:+ "/") m); [| reflexivity].
    now destruct (includes (location_search e) "debug").
  - now destruct (SITE_NONCE e), (includes (location_search e) "debug").
Qed.

Lemma rewritePath_eq (e : env) (key : string) :
  rewritePath e key
  = (fun u => u +:+ "?" +:+ toString (queryParams e key)) <$> rewrittenUri e key.
Proof.
  unfold rewritePath. rewrite rewriteParts_eq.
  now destruct (rewrittenUri e key).
Qed.

(** [rewritePath] throws on the keys of [raisesOn] and on no others. *)
Lemma rewrittenUri_None (e : env) (key : string) :
  rewrittenUri e key = None <-> raisesOn e key = true.
Proof.
  unfold rewrittenUri, raisesOn, replaceInherited, includes.
  destruct (aliasOf e key) as [[whole [prefix|m]]|]; [easy | | easy].
  destruct (splitFirst (whole +:+ "/") key) as [[b a]|]; destruct m; easy.
Qed.

Lemma rewritePath_None (e : env) (key : string) :
  rewritePath e key = None <-> raisesOn e key = true.
Proof.
  rewrite rewritePath_eq, <- rewrittenUri_None.
  now destruct (rewrittenUri e key).
Qed.

Lemma aliasOf_aliasedKey (e : env) (name prefix rest : string) :
  aliasName name = true ->
  dynImportPaths e !! name = Some prefix ->
  truthy prefix = true ->
  aliasOf e (aliasedKey name rest) = Some ("%" +:+ name +:+ "%", Registered prefix).
Proof.
  intros Hn Hp Ht.
  exact (aliasOf_registered e name prefix ("/" +:+ rest) Hn Hp Ht).
Qed.

(** On the alias branch the token and its separator give way to the
    prefix. *)
Lemma rewrittenUri_aliased (e : env) (name prefix rest : string) :
  aliasName name = true ->
  dynImportPaths e !! name = Some prefix ->
  truthy prefix = true ->
  count "$" prefix = 0 ->
  rewrittenUri e (aliasedKey name rest) = Some (prefix +:+ rest).
Proof.
  intros Hn Hp Ht Hd. unfold rewrittenUri.
  rewrite (aliasOf_aliasedKey e name prefix rest Hn Hp Ht).
  now rewrite aliasedKey_pattern, (replace_prefix _ rest prefix Hd).
Qed.

Lemma queryParams_aliased (e : env) (name prefix rest : string) :
  aliasName name = true ->
  dynImportPaths e !! name = Some prefix ->
  truthy prefix = true ->
  queryParams e (aliasedKey name rest) = debugParams e.
Proof.
  intros Hn Hp Ht. unfold queryParams.
  now rewrite (aliasOf_aliasedKey e name prefix rest Hn Hp Ht).
Qed.

(** C8: a key that begins with a delimited alias token and its separator,
    [%name%/rest], where [name] is registered for a prefix, resolves to the
    prefix followed by [rest], a [?] and the query string; for
    [%assets%/foo.mjs] and the prefix [https://example.com/modules/] the
    result begins with [https://example.com/modules/foo.mjs?]. The prefix
    is a non-empty text without [$]. *)
Theorem alias_token_replaced_by_prefix (e : env) (name prefix rest : string) :
  aliasName name = true ->
  dynImportPaths e !! name = Some prefix ->
  truthy prefix = true ->
  count "$" prefix = 0 ->
  rewritePath e (aliasedKey name rest)
  = Some (prefix +:+ rest +:+ "?" +:+ toString (debugParams e)).
Proof.
  intros Hn Hp Ht Hd.
  rewrite rewritePath_eq.
  rewrite (rewrittenUri_aliased e name prefix rest Hn Hp Ht Hd).
  rewrite (queryParams_aliased e name prefix rest Hn Hp Ht).
  cbn. now rewrite append_assoc.
Qed.

Lemma alias_token_replaced_by_prefix_witness :
  aliasName "assets" = true /\
  dynImportPaths (Inputs.exampleEnv (Some "abc") "?debug=1") !! "assets"
    = Some "https://example.com/modules/" /\
  rewritePath (Inputs.exampleEnv (Some "abc") "?debug=1") "%assets%/foo.mjs"
  = Some "https://example.com/modules/foo.mjs?debug=true&random=u-1".
Proof.
  split; [reflexivity |]. split; [vm_compute; reflexivity |].
  apply (alias_token_replaced_by_prefix
           (Inputs.exampleEnv (Some "abc") "?debug=1")
           "assets" "https://example.com/modules/" "foo.mjs");
    vm_compute; reflexivity.
Defined.

(** The example of the specification, for every configuration that
    registers [assets] for that prefix. *)
Lemma assets_foo_example (e : env) :
  dynImportPaths e !! "assets" = Some "https://example.com/modules/" ->
  rewritePath e "%assets%/foo.mjs"
  = Some ("https://example.com/modules/foo.mjs" +:+ "?" +:+ toString (debugParams e)).
Proof.
  intros H.
  change "%assets%/foo.mjs" with (aliasedKey "assets" "foo.mjs").
  rewrite rewritePath_eq.
  rewrite (rewrittenUri_aliased e "assets" _ "foo.mjs" eq_refl H eq_refl eq_refl).
  now rewrite (queryParams_aliased e "assets" _ "foo.mjs" eq_refl H eq_refl).
Qed.

(** The table of the source itself. *)
Example rewrite_with_source_table :
  rewritePath {| dynImportPaths := dynImportPaths_src; SITE_NONCE := Some "n 1";
                 location_search := ""; randomUUID := "u-1" |}
    "%assets%/hnl.colortool.mjs"
  = Some "https://code.hnldesign.nl/js-modules/hnl.colortool.mjs?"
  /\ rewritePath {| dynImportPaths := dynImportPaths_src; SITE_NONCE := Some "n 1";
                    location_search := "?debug"; randomUUID := "u-1" |}
       "./modules/hnl.colortool.mjs"
     = Some "./../modules/hnl.colortool.mjs?nonce=n+1&debug=true&random=u-1".
Proof. vm_compute. split; reflexivity. Qed.

(** Tokens that name members of [Object.prototype], with the table of the
    source: [constructor] is found and replaced by itself, so the key keeps
    its token and gets no nonce; [hasOwnProperty] is found, called and
    throws. *)
Example rewrite_inherited_members :
  let e := {| dynImportPaths := dynImportPaths_src; SITE_NONCE := Some "abc";
              location_search := ""; randomUUID := "u-1" |} in
  rewritePath e "%constructor%/./x" = Some "%constructor%/./x?"
  /\ rewritePath e "%constructor%/foo.mjs" = Some "%constructor%/foo.mjs?"
  /\ rewritePath e "%toString%/foo.mjs" = Some "[object Undefined]foo.mjs?"
  /\ rewritePath e "%hasOwnProperty%/foo.mjs" = None
  /\ rewritePath e "%hasOwnProperty%foo.mjs" = Some "%hasOwnProperty%foo.mjs?".
Proof. vm_compute. repeat split. Qed.

(** A key without a query satisfies the merge reading: what it gets is what
    the resolver adds. *)
Example query_merge_without_query :
  PathSpec.mergesQuery (Inputs.exampleEnv (Some "abc") "") "./foo.mjs".
Proof. unfold PathSpec.mergesQuery. vm_compute. reflexivity. Qed.

(** C9: [rewritePath] always appends a [?] behind the rewritten path, and
    when no parameter is added (no debug flag, and the key takes the alias
    branch or no nonce is configured) the string it returns is the
    rewritten path followed by a bare [?]. It returns a string for every
    key but those of [raisesOn], on which the replacement throws. *)
Theorem bare_question_mark (e : env) (key : string) :
  includes (location_search e) "debug" = false ->
  aliasOf e key <> None \/ SITE_NONCE e = None ->
  rewriteParts e key = (fun u => (u, [])) <$> rewrittenUri e key
  /\ rewritePath e key = (fun u => u +:+ "?") <$> rewrittenUri e key
  /\ (rewritePath e key = None <-> raisesOn e key = true).
Proof.
  intros Hd Hb.
  assert (Hp : queryParams e key = []).
  { unfold queryParams, debugParams. rewrite Hd.
    destruct (aliasOf e key) as [p|]; [reflexivity |].
    destruct Hb as [Hb | ->]; [congruence | reflexivity]. }
  split; [now rewrite rewriteParts_eq, Hp |].
  split; [| apply rewritePath_None].
  rewrite rewritePath_eq, Hp. reflexivity.
Qed.

Lemma bare_question_mark_witness :
  includes (location_search (Inputs.exampleEnv None "")) "debug" = false /\
  rewritePath (Inputs.exampleEnv None "") "%assets%/foo.mjs"
  = Some "https://example.com/modules/foo.mjs?".
Proof.
  split; [reflexivity |].
  apply (bare_question_mark (Inputs.exampleEnv None "") "%assets%/foo.mjs");
    [reflexivity | right; reflexivity].
Defined.

(** C10: for a key that begins with a delimited alias token whose name is
    registered, [rewritePath] returns with the parameters of the debug
    branch alone, so none of them is named [nonce] whatever [SITE_NONCE]
    is; a [nonce] parameter is appended on the other branch only. *)
Theorem alias_branch_has_no_nonce (e : env) (name prefix rest : string) :
  aliasName name = true ->
  dynImportPaths e !! name = Some prefix ->
  truthy prefix = true ->
  (exists u, rewriteParts e ("%" +:+ name +:+ "%" +:+ rest) = Some (u, debugParams e))
  /\ (forall v, ("nonce", v) ∉ debugParams e)
  /\ (forall key u ps v, rewriteParts e key = Some (u, ps) -> ("nonce", v) ∈ ps ->
        aliasOf e key = None /\ SITE_NONCE e = Some v).
Proof.
  intros Hn Hp Ht.
  assert (Hd : forall v, ("nonce", v) ∉ debugParams e).
  { intros v. unfold debugParams.
    destruct (includes (location_search e) "debug"); [| apply not_elem_of_nil].
    intros H. apply elem_of_cons in H as [H | H]; [discriminate |].
    apply elem_of_cons in H as [H | H]; [discriminate |].
    now apply not_elem_of_nil in H. }
  split.
  { rewrite rewriteParts_eq. unfold rewrittenUri, queryParams.
    rewrite (aliasOf_registered e name prefix rest Hn Hp Ht). cbn. eauto. }
  split; [exact Hd |].
  intros key u ps v. rewrite rewriteParts_eq. unfold queryParams.
  destruct (rewrittenUri e key) as [u'|]; [| discriminate].
  cbn. intros H. injection H as <- <-.
  destruct (aliasOf e key) as [p|]; [intros H; now apply Hd in H |].
  destruct (SITE_NONCE e) as [n|]; [| intros H; now apply Hd in H].
  intros H. apply elem_of_cons in H as [H | H]; [| now apply Hd in H].
  injection H as ->. split; reflexivity.
Qed.

Lemma alias_branch_has_no_nonce_witness :
  (exists u, rewriteParts (Inputs.exampleEnv (Some "abc") "") "%assets%/foo.mjs"
             = Some (u, []))
  /\ SITE_NONCE (Inputs.exampleEnv (Some "abc") "") = Some "abc".
Proof.
  split; [| reflexivity].
  apply (alias_branch_has_no_nonce (Inputs.exampleEnv (Some "abc") "")
           "assets" "https://example.com/modules/" "/foo.mjs");
    vm_compute; reflexivity.
Defined.

(** C5, as stated, fails: the key [./foo.mjs?v=1] with the nonce [abc]
    resolves to [./../foo.mjs?v=1?nonce=abc], whose query has the single
    component [v=1?nonce=abc] instead of the merged [v=1] and
    [nonce=abc]. *)
Lemma query_not_merged :
  rewritePath (Inputs.exampleEnv (Some "abc") "") "./foo.mjs?v=1"
  = Some "./../foo.mjs?v=1?nonce=abc"
  /\ ~ PathSpec.mergesQuery (Inputs.exampleEnv (Some "abc") "") "./foo.mjs?v=1".
Proof.
  split; [vm_compute; reflexivity |].
  unfold PathSpec.mergesQuery. vm_compute. discriminate.
Qed.

(** C5, amended: for a key that takes the relative branch or begins with a
    registered alias token, [rewritePath] returns a string; it is a
    function of the key and does not change it. A string it returns is
    the rewritten key text followed by one [?] and the serialized
    parameters it adds. Nothing is merged with a query the key has
    already: the appended part holds no [?] of its own, so the result has
    exactly one [?] more than the rewritten text. On the relative branch
    the rewritten text is the key with its first [./] replaced by [./../],
    wherever that is, and holds as many [?] as the key. *)
Theorem query_appended_not_merged (e : env) (key : string) :
  ((forall whole m, aliasOf e key <> Some (whole, Inherited m)) ->
   exists r, rewritePath e key = Some r)
  /\ (forall r, rewritePath e key = Some r ->
       exists u, rewrittenUri e key = Some u
         /\ r = u +:+ "?" +:+ toString (queryParams e key)
         /\ count "?" (toString (queryParams e key)) = 0
         /\ count "?" r = S (count "?" u))
  /\ (aliasOf e key = None ->
       rewrittenUri e key = Some (replace key "./" "./../")
       /\ count "?" (replace key "./" "./../") = count "?" key).
Proof.
  split; [| split].
  - intros Hin. rewrite rewritePath_eq. unfold rewrittenUri.
    destruct (aliasOf e key) as [[whole [prefix|m]]|]; cbn; eauto.
    now destruct (Hin whole m).
  - intros r. rewrite rewritePath_eq.
    destruct (rewrittenUri e key) as [u|]; [| discriminate].
    cbn. intros H. injection H as <-. exists u.
    split; [reflexivity |]. split; [reflexivity |].
    split; [apply toString_no_question |].
    rewrite count_app. cbn [count]. rewrite toString_no_question. simpl. lia.
  - intros Ha. unfold rewrittenUri. rewrite Ha.
    split; [reflexivity | apply replace_rebase_count].
Qed.

Lemma query_appended_not_merged_witness :
  rewritePath (Inputs.exampleEnv (Some "abc") "") "foo.mjs?next=./bar"
  = Some "foo.mjs?next=./../bar?nonce=abc"
  /\ rewrittenUri (Inputs.exampleEnv (Some "abc") "") "foo.mjs?next=./bar"
     = Some (replace "foo.mjs?next=./bar" "./" "./../")
  /\ count "?" (replace "foo.mjs?next=./bar" "./" "./../")
     = count "?" "foo.mjs?next=./bar".
Proof.
  split; [vm_compute; reflexivity |].
  apply (query_appended_not_merged (Inputs.exampleEnv (Some "abc") "")
           "foo.mjs?next=./bar").
  vm_compute. reflexivity.
Defined.

End PathResolverFacts.

(** ** The completion counter *)

Module EagerFacts.
Import Host Eager.

Lemma thenHandler_c (l : load) (m : moduleNs) (s : state) :
  c (thenHandler l m s) = (c s - 1)%Z.
Proof. unfold thenHandler. destruct (mod_init m); reflexivity. Qed.

Lemma thenHandler_callbackCalls (l : load) (m : moduleNs) (s : state) :
  callbackCalls (thenHandler l m s) = callbackCalls s.
Proof. unfold thenHandler. destruct (mod_init m); reflexivity. Qed.

Lemma finallyHandler_c (s : state) : c (finallyHandler s) = c s.
Proof. unfold finallyHandler. destruct (c s =? 0)%Z; reflexivity. Qed.

Lemma finallyHandler_callbackCalls (s : state) :
  callbackCalls (finallyHandler s)
  = if (c s =? 0)%Z then S (callbackCalls s) else callbackCalls s.
Proof. unfold finallyHandler. destruct (c s =? 0)%Z; reflexivity. Qed.

(** Only the success handler touches the counter. *)
Lemma runJob_c (b : batch) (j : job) (s : state) :
  c (runJob b j s) = (c s - if isThenOf b j then 1 else 0)%Z.
Proof.
  unfold runJob, isThenOf. destruct j as [i st]; cbn [fst snd].
  destruct (loads b !! i) as [l|]; [| destruct st; lia].
  destruct st, (result l); cbn [isFulfilled];
    rewrite ?thenHandler_c, ?finallyHandler_c; unfold catchHandler; simpl; lia.
Qed.

(** The callback is only ever called by a [finally] job that finds [c] at 0. *)
Lemma runJob_callbackCalls (b : batch) (j : job) (s : state) :
  c s <> 0%Z -> callbackCalls (runJob b j s) = callbackCalls s.
Proof.
  intros Hc. unfold runJob. destruct j as [i st]; cbn [fst snd].
  destruct (loads b !! i) as [l|]; [| reflexivity].
  destruct st, (result l);
    rewrite ?thenHandler_callbackCalls, ?finallyHandler_callbackCalls;
    try reflexivity; now destruct (Z.eqb_spec (c s) 0).
Qed.

Lemma runJobs_cons (b : batch) (j : job) (sched : list job) (s : state) :
  runJobs b (j :: sched) s = runJobs b sched (runJob b j s).
Proof. reflexivity. Qed.

Lemma runJobs_app (b : batch) (p q : list job) (s : state) :
  runJobs b (p ++ q) s = runJobs b q (runJobs b p s).
Proof. unfold runJobs. apply foldl_app. Qed.

Lemma thenCount_cons (b : batch) (j : job) (sched : list job) :
  thenCount b (j :: sched)
  = (if isThenOf b j then 1 else 0) + thenCount b sched.
Proof.
  unfold thenCount. rewrite filter_cons.
  destruct (isThenOf b j); case_decide; try discriminate; try congruence; reflexivity.
Qed.

(** [c] after a run: one less per success handler that ran. *)
Lemma runJobs_c (b : batch) (sched : list job) (s : state) :
  c (runJobs b sched s) = (c s - Z.of_nat (thenCount b sched))%Z.
Proof.
  revert s; induction sched as [|j sched IH]; intros s.
  - unfold thenCount. simpl. lia.
  - rewrite runJobs_cons, IH, runJob_c, thenCount_cons.
    destruct (isThenOf b j); lia.
Qed.

(** While [c] stays above the number of decrements still to come, the
    callback is not called. *)
Lemma runJobs_no_callback (b : batch) (sched : list job) (s : state) :
  (Z.of_nat (thenCount b sched) < c s)%Z ->
  callbackCalls (runJobs b sched s) = callbackCalls s.
Proof.
  revert s; induction sched as [|j sched IH]; intros s H; [reflexivity |].
  rewrite thenCount_cons in H.
  rewrite runJobs_cons, IH.
  - apply runJob_callbackCalls. lia.
  - rewrite runJob_c. destruct (isThenOf b j); lia.
Qed.

Lemma isThenOf_inv (b : batch) (j : job) :
  isThenOf b j = true ->
  j.2 = OnThen /\ exists l, loads b !! j.1 = Some l /\ isFulfilled (result l) = true.
Proof.
  unfold isThenOf. destruct j as [i st]; cbn [fst snd].
  destruct st; try discriminate.
  destruct (loads b !! i) as [l|]; [| discriminate]. eauto.
Qed.

(** When no job runs twice and some load is rejected, fewer success handlers
    run than there are loads. *)
Lemma thenCount_lt (b : batch) (sched : list job) (i : nat) (l : load) :
  NoDup sched ->
  loads b !! i = Some l ->
  result l = Rejected ->
  thenCount b sched < List.length (loads b).
Proof.
  intros Hnd Hi Hr. unfold thenCount.
  set (T := filter (fun j => isThenOf b j = true) sched).
  assert (HT : forall j, j ∈ T -> isThenOf b j = true).
  { intros j Hj. now apply list_elem_of_filter in Hj as [? _]. }
  assert (HndI : NoDup (i :: T.*1)).
  { apply NoDup_cons. split.
    - intros Hin. apply list_elem_of_fmap in Hin as [j [-> Hj]].
      apply HT, isThenOf_inv in Hj as [_ [l' [Hl' Hf]]].
      rewrite Hi in Hl'. injection Hl' as <-. rewrite Hr in Hf. discriminate.
    - apply NoDup_fmap_2_strong; [| now apply NoDup_filter].
      intros [i1 s1] [i2 s2] H1 H2 Heq. cbn in Heq. subst i2.
      apply HT, isThenOf_inv in H1 as [H1 _].
      apply HT, isThenOf_inv in H2 as [H2 _]. cbn in H1, H2. congruence. }
  assert (Hsub : forall x, x ∈ i :: T.*1 -> x ∈ seq 0 (List.length (loads b))).
  { intros x Hx. apply elem_of_seq. split; [lia |]. simpl.
    apply elem_of_cons in Hx as [-> | Hx].
    - now apply lookup_lt_Some in Hi.
    - apply list_elem_of_fmap in Hx as [j [-> Hj]].
      apply HT, isThenOf_inv in Hj as [_ [l' [Hl' _]]].
      now apply lookup_lt_Some in Hl'. }
  pose proof (submseteq_length _ _ (NoDup_submseteq _ _ HndI Hsub)) as Hlen.
  rewrite length_seq in Hlen. simpl in Hlen. rewrite length_fmap in Hlen.
  exact Hlen.
Qed.

(** C1, at a rejected load: when the batch holds as many loads as [totals]
    says and one of them is rejected, then whatever the order of the jobs,
    [c] never reaches 0 and the callback is never called, although every
    load has settled. *)
Theorem rejected_load_blocks_callback
    (b : batch) (sched : list job) (i : nat) (l : load) :
  totals b = Z.of_nat (List.length (loads b)) ->
  NoDup sched ->
  loads b !! i = Some l ->
  result l = Rejected ->
  callbackCalls (dynImports b sched) = 0 /\ (0 < c (dynImports b sched))%Z.
Proof.
  intros Ht Hnd Hi Hr.
  pose proof (thenCount_lt b sched i l Hnd Hi Hr) as Hlt.
  unfold dynImports. split.
  - rewrite runJobs_no_callback; [reflexivity |]. simpl. lia.
  - rewrite runJobs_c. simpl. lia.
Qed.

Lemma rejected_load_blocks_callback_witness :
  NoDup (chain 0) /\
  callbackCalls (dynImports Inputs.oneFailing (chain 0)) = 0 /\
  (0 < c (dynImports Inputs.oneFailing (chain 0)))%Z.
Proof.
  assert (Hnd : NoDup (chain 0)).
  { unfold chain. repeat (apply NoDup_cons; split);
      [ | | | apply NoDup_nil_2 ];
      intros H; repeat (apply elem_of_cons in H as [H | H]; [discriminate |]);
      now apply not_elem_of_nil in H. }
  split; [exact Hnd |].
  apply (rejected_load_blocks_callback Inputs.oneFailing (chain 0) 0
           {| key := "./a.mjs"; elements := [1]; result := Rejected |});
    [reflexivity | exact Hnd | reflexivity | reflexivity].
Defined.

(** C3, at a rejected load: [c] starts at [totals], and the three jobs of a
    rejected load leave it as it is; the settlement is not counted. *)
Theorem rejected_load_keeps_counter (b : batch) (i : nat) (l : load) (s : state) :
  loads b !! i = Some l ->
  result l = Rejected ->
  c (start b) = totals b /\ c (runJobs b (chain i) s) = c s.
Proof.
  intros Hi Hr. split; [reflexivity |].
  rewrite runJobs_c. unfold thenCount, chain.
  rewrite !filter_cons, filter_nil. unfold isThenOf. cbn [fst snd].
  rewrite Hi, Hr. cbn [isFulfilled].
  repeat case_decide; try discriminate. simpl. lia.
Qed.

Lemma rejected_load_keeps_counter_witness :
  c (start Inputs.oneFailing) = 1%Z /\
  c (runJobs Inputs.oneFailing (chain 0) (start Inputs.oneFailing))
  = c (start Inputs.oneFailing).
Proof.
  apply (rejected_load_keeps_counter Inputs.oneFailing 0
           {| key := "./a.mjs"; elements := [1]; result := Rejected |});
    reflexivity.
Defined.

(** A throwing [init] is caught inside the success handler: next to the
    error notice, the handler does what it does for an [init] that
    returns, the decrement of [c] included. *)
Lemma thenHandler_throw_contained (l : load) (name : option string) (s : state) :
  let thrown := thenHandler l {| mod_NAME := name; mod_init := InitThrows |} s in
  let quiet := thenHandler l {| mod_NAME := name; mod_init := InitReturns |} s in
  c thrown = (c s - 1)%Z
  /\ c thrown = c quiet
  /\ initCalls thrown = initCalls s ++ [(key l, elements l)]
  /\ initCalls thrown = initCalls quiet
  /\ callbackCalls thrown = callbackCalls quiet
  /\ exists label, log thrown = log quiet ++ [LogError label Caught].
Proof. unfold thenHandler. cbn. repeat split; eauto. Qed.

Lemma chain_fulfilled (b : batch) (i : nat) (l : load) (m : moduleNs) (s : state) :
  loads b !! i = Some l ->
  result l = Fulfilled m ->
  c (runJobs b (chain i) s) = (c s - 1)%Z
  /\ callbackCalls (runJobs b (chain i) s)
     = if (c s =? 1)%Z then S (callbackCalls s) else callbackCalls s.
Proof.
  intros Hi Hr. unfold chain, runJobs. cbn [foldl]. unfold runJob. cbn [fst snd].
  rewrite Hi, Hr.
  rewrite finallyHandler_c, finallyHandler_callbackCalls,
    thenHandler_c, thenHandler_callbackCalls.
  split; [reflexivity |].
  destruct (Z.eqb_spec (c s - 1) 0), (Z.eqb_spec (c s) 1); try lia; reflexivity.
Qed.

Lemma oneByOne_fulfilled (b : batch) (order : list nat) (s : state) :
  allFulfilled b order ->
  c (runJobs b (oneByOne order) s) = (c s - Z.of_nat (List.length order))%Z
  /\ (c s = Z.of_nat (List.length order) -> order <> [] ->
      callbackCalls (runJobs b (oneByOne order) s) = S (callbackCalls s))
  /\ ((Z.of_nat (List.length order) < c s)%Z ->
      callbackCalls (runJobs b (oneByOne order) s) = callbackCalls s).
Proof.
  revert s; induction order as [|i order IH]; intros s Hall.
  - cbn. repeat split; [lia | congruence].
  - destruct (Hall i) as [l [m [Hi Hr]]]; [apply elem_of_cons; now left |].
    assert (Hall' : allFulfilled b order).
    { intros j Hj. apply Hall, elem_of_cons. now right. }
    destruct (chain_fulfilled b i l m s Hi Hr) as [Hc Hk].
    destruct (IH (runJobs b (chain i) s) Hall') as [IHc [IHeq IHlt]].
    change (oneByOne (i :: order)) with (chain i ++ oneByOne order).
    rewrite runJobs_app. cbn [List.length]. repeat split.
    + rewrite IHc, Hc. lia.
    + intros Hs _. destruct order as [|i' order].
      * cbn [List.length] in Hs. cbn [oneByOne flat_map runJobs foldl].
        rewrite Hk. now destruct (Z.eqb_spec (c s) 1); [| lia].
      * rewrite IHeq; [| rewrite Hc; cbn [List.length] in *; lia | discriminate].
        rewrite Hk. cbn [List.length] in Hs.
        now destruct (Z.eqb_spec (c s) 1); [lia |].
    + intros Hs. rewrite IHlt; [| rewrite Hc; lia].
      rewrite Hk. now destruct (Z.eqb_spec (c s) 1); [lia |].
Qed.

(** When every load is fulfilled, there are [totals] of them and they
    settle one after the other, the callback is called exactly once,
    whether or not an [init] throws. *)
Lemma all_fulfilled_fires_once (b : batch) (order : list nat) :
  totals b = Z.of_nat (List.length order) ->
  order <> [] ->
  allFulfilled b order ->
  callbackCalls (dynImports b (oneByOne order)) = 1
  /\ c (dynImports b (oneByOne order)) = 0%Z.
Proof.
  intros Ht Hne Hall. unfold dynImports.
  destruct (oneByOne_fulfilled b order (start b) Hall) as [Hc [Heq _]].
  split; [now rewrite Heq | rewrite Hc; simpl; lia].
Qed.

Example two_loading_one_by_one :
  callbackCalls (dynImports Inputs.twoLoading (oneByOne [1; 0])) = 1.
Proof. reflexivity. Qed.

(** When both imports are fulfilled before the microtask queue is drained,
    the reaction jobs interleave: both decrements run before either
    [finally], and both [finally] jobs find [c] at 0. *)
Example two_loading_interleaved :
  callbackCalls
    (dynImports Inputs.twoLoading
       [(0, OnThen); (1, OnThen); (0, OnCatch); (1, OnCatch);
        (0, OnFinally); (1, OnFinally)]) = 2.
Proof. reflexivity. Qed.

(** C6, at a throwing [init] beside a rejected load: the error is caught
    and reported, [init] has been called with the elements, and the
    settlement of the throwing module is counted ([c] goes from 2 to 1);
    the rejected sibling is not counted, so the callback is not called. *)
Theorem throwing_init_beside_rejected_load :
  let s := dynImports Inputs.throwingAndFailing (oneByOne [0; 1]) in
  initCalls s = [("./x.mjs", [1; 2])]
  /\ LogError "X" Caught ∈ log s
  /\ c s = 1%Z
  /\ callbackCalls s = 0.
Proof.
  cbn zeta. repeat split.
  apply list_elem_of_In. vm_compute.
  repeat first [left; reflexivity | right].
Qed.

End EagerFacts.

(** ** Deferred groups *)

Module LazyFacts.
Import Host Lazy.

Section Group.

Variable groups : gmap string (list element).
Variable cfg : PathResolver.env.

Lemma isVisible_fold (k : string) (els : list element) (s : state) :
  let s' := foldl (fun s e => isVisible k e s) s els in
  deferredModules s' = deferredModules s
  /\ listeners s' = listeners s
  /\ imports s' = imports s
  /\ fired s' = fired s
  /\ watches s' = watches s ++ map (fun e => (k, e)) els.
Proof.
  revert s; induction els as [|e els IH]; intros s; cbn [foldl map].
  - rewrite app_nil_r. repeat split.
  - destruct (IH (isVisible k e s)) as (H1 & H2 & H3 & H4 & H5).
    cbn zeta in *. rewrite H1, H2, H3, H4, H5. cbn.
    rewrite <- app_assoc. repeat split.
Qed.

Lemma watchModules_fields (k : string) (s : state) :
  deferredModules (watchModules groups k s) = deferredModules s
  /\ listeners (watchModules groups k s) = listeners s
  /\ imports (watchModules groups k s) = imports s
  /\ fired (watchModules groups k s) = fired s ++ [k].
Proof.
  unfold watchModules.
  destruct (isVisible_fold k (elementsOf groups k) (markFired k s))
    as (H1 & H2 & H3 & H4 & _).
  cbn zeta in *. rewrite H1, H2, H3, H4. repeat split.
Qed.

Lemma docShift_fields (ks : list string) (s : state) :
  let s' := foldl (fun s k => watchModules groups k s) s ks in
  deferredModules s' = deferredModules s
  /\ listeners s' = listeners s
  /\ imports s' = imports s
  /\ fired s' = fired s ++ ks.
Proof.
  revert s; induction ks as [|k ks IH]; intros s; cbn [foldl].
  - rewrite app_nil_r. repeat split.
  - destruct (IH (watchModules groups k s)) as (H1 & H2 & H3 & H4).
    destruct (watchModules_fields k s) as (W1 & W2 & W3 & W4).
    cbn zeta in *. rewrite H1, H2, H3, H4, W1, W2, W3, W4.
    rewrite <- app_assoc. repeat split.
Qed.

(** The visibility callback leaves the registry as it is. It drops the
    subscription of its group unless [rewritePath] throws, and issues a
    load when its guard is open and [rewritePath] returns. *)
Lemma onVisible_fields (k : string) (s : state) :
  deferredModules (onVisible cfg k s) = deferredModules s
  /\ listeners (onVisible cfg k s)
     = (if aborts cfg k s then listeners s else listeners s ∖ {[k]})
  /\ fired (onVisible cfg k s) = fired s
  /\ watches (onVisible cfg k s) = watches s
  /\ imports (onVisible cfg k s)
     = (if issues cfg k s then imports s ++ [k] else imports s).
Proof.
  unfold onVisible, aborts, issues.
  destruct (guard k s), (PathResolver.rewritePath cfg k); repeat split.
Qed.

Lemma guard_dropWatch (k : string) (w : string * element) (s : state) :
  guard k (dropWatch w s) = guard k s.
Proof. reflexivity. Qed.

Lemma settle_fields (k : string) (r : settlement) (s : state) :
  listeners (settle groups k r s) = listeners s
  /\ imports (settle groups k r s) = imports s
  /\ fired (settle groups k r s) = fired s
  /\ watches (settle groups k r s) = watches s
  /\ deferredModules (settle groups k r s)
     = match r with
       | Fulfilled _ => delete k (deferredModules s)
       | Rejected => deferredModules s
       end.
Proof.
  destruct r as [m|]; cbn; [| repeat split].
  unfold thenHandler. destruct (mod_init m); repeat split.
Qed.

Lemma run_app (s : state) (p q : list event) :
  run groups cfg s (p ++ q)
  = match run groups cfg s p with
    | Some s' => run groups cfg s' q
    | None => None
    end.
Proof.
  revert s; induction p as [|ev p IH]; intros s; cbn [run app]; [reflexivity |].
  destruct (step groups cfg s ev); [apply IH | reflexivity].
Qed.

(** No step subscribes a handler. *)
Lemma step_listeners (s s' : state) (ev : event) :
  step groups cfg s ev = Some s' -> listeners s' ⊆ listeners s.
Proof.
  destruct ev as [|k e|n r]; cbn [step]; intros H.
  - simplify_eq.
    destruct (docShift_fields (elements (listeners s)) s) as (_ & -> & _). done.
  - case_bool_decide as Hd; [| discriminate]. simplify_eq.
    destruct (onVisible_fields k (dropWatch (k, e) s)) as (_ & -> & _).
    destruct (aborts cfg k (dropWatch (k, e) s)); cbn; [done |].
    now apply subseteq_difference_l.
  - destruct (imports s !! n) as [k|]; [| discriminate].
    case_bool_decide as Hd; [discriminate |]. simplify_eq.
    destruct (settle_fields k r (markSettled n s)) as (-> & _). done.
Qed.

Lemma run_listeners (tr : list event) (s s' : state) :
  run groups cfg s tr = Some s' -> listeners s' ⊆ listeners s.
Proof.
  revert s; induction tr as [|ev tr IH]; intros s; cbn [run]; intros H.
  - now simplify_eq.
  - destruct (step groups cfg s ev) as [s1|] eqn:E; [| discriminate].
    apply step_listeners in E. apply IH in H. set_solver.
Qed.

(** What a visibility callback that runs to its end achieves for good. *)
Lemma step_visible_unsubscribed (s s' : state) (k : string) (e : element) :
  aborts cfg k s = false ->
  step groups cfg s (Visible k e) = Some s' -> k ∉ listeners s'.
Proof.
  cbn [step]. intros Ha H. case_bool_decide as Hd; [| discriminate]. simplify_eq.
  destruct (onVisible_fields k (dropWatch (k, e) s)) as (_ & -> & _).
  change (aborts cfg k (dropWatch (k, e) s)) with (aborts cfg k s). rewrite Ha.
  intros [_ Hn]%elem_of_difference. apply Hn. now apply elem_of_singleton.
Qed.

Lemma filter_key_not_in (k : string) (ks : list string) :
  k ∉ ks -> filter (fun x => x = k) ks = [].
Proof.
  induction ks as [|x ks IH]; intros H; [reflexivity |].
  apply not_elem_of_cons in H as [Hne Hin].
  rewrite filter_cons. case_decide; [congruence | now apply IH].
Qed.

(** A handler that is not subscribed is not invoked. *)
Lemma step_firedCount (s s' : state) (ev : event) (k : string) :
  k ∉ listeners s -> step groups cfg s ev = Some s' -> firedCount k s' = firedCount k s.
Proof.
  intros Hk. unfold firedCount.
  destruct ev as [|k' e|n r]; cbn [step]; intros H.
  - simplify_eq.
    destruct (docShift_fields (elements (listeners s)) s) as (_ & _ & _ & ->).
    rewrite filter_app, (filter_key_not_in k (elements (listeners s))), app_nil_r;
      [reflexivity |].
    now rewrite elem_of_elements.
  - case_bool_decide as Hd; [| discriminate]. simplify_eq.
    now destruct (onVisible_fields k' (dropWatch (k', e) s)) as (_ & _ & -> & _).
  - destruct (imports s !! n) as [k'|]; [| discriminate].
    case_bool_decide as Hd; [discriminate |]. simplify_eq.
    now destruct (settle_fields k' r (markSettled n s)) as (_ & _ & -> & _).
Qed.

Lemma run_firedCount (tr : list event) (s s' : state) (k : string) :
  k ∉ listeners s -> run groups cfg s tr = Some s' -> firedCount k s' = firedCount k s.
Proof.
  revert s; induction tr as [|ev tr IH]; intros s Hk; cbn [run]; intros H.
  - now simplify_eq.
  - destruct (step groups cfg s ev) as [s1|] eqn:E; [| discriminate].
    rewrite (IH s1); [now apply (step_firedCount s s1 ev) | | exact H].
    apply step_listeners in E. set_solver.
Qed.

Lemma issues_not_aborts (k : string) (s : state) :
  issues cfg k s = true ->
  aborts cfg k s = false /\ PathResolver.rewritePath cfg k <> None.
Proof.
  unfold issues, aborts. destruct (PathResolver.rewritePath cfg k); [| discriminate].
  intros _. split; [reflexivity | discriminate].
Qed.

Lemma step_importsUnsubscribed (s s' : state) (ev : event) :
  importsUnsubscribed s /\ importsResolved cfg s ->
  step groups cfg s ev = Some s' ->
  importsUnsubscribed s' /\ importsResolved cfg s'.
Proof.
  intros [Hinv Hres] H. pose proof (step_listeners s s' ev H) as Hsub. revert H.
  destruct ev as [|k' e|n r]; cbn [step]; intros H.
  - simplify_eq. unfold importsUnsubscribed, importsResolved.
    destruct (docShift_fields (elements (listeners s)) s) as (_ & -> & -> & _).
    split; assumption.
  - case_bool_decide as Hd; [| discriminate]. simplify_eq.
    unfold importsUnsubscribed, importsResolved.
    destruct (onVisible_fields k' (dropWatch (k', e) s)) as (_ & -> & _ & _ & ->).
    change (aborts cfg k' (dropWatch (k', e) s)) with (aborts cfg k' s).
    change (issues cfg k' (dropWatch (k', e) s)) with (issues cfg k' s).
    cbn [imports listeners dropWatch].
    destruct (issues cfg k' s) eqn:Ei.
    + destruct (issues_not_aborts k' s Ei) as [-> Hp]. split.
      * intros k Hin [Hl Hn]%elem_of_difference.
        apply elem_of_app in Hin as [Hin | Hin]; [now apply (Hinv k) |].
        apply list_elem_of_singleton in Hin. subst k.
        apply Hn. now apply elem_of_singleton.
      * intros k Hin. apply elem_of_app in Hin as [Hin | Hin]; [now apply Hres |].
        apply list_elem_of_singleton in Hin. now subst k.
    + split; [| exact Hres].
      intros k Hin Hl. apply (Hinv k Hin).
      destruct (aborts cfg k' s); [exact Hl |].
      now apply elem_of_difference in Hl as [Hl _].
  - destruct (imports s !! n) as [k'|]; [| discriminate].
    case_bool_decide as Hd; [discriminate |]. simplify_eq.
    unfold importsUnsubscribed, importsResolved.
    destruct (settle_fields k' r (markSettled n s)) as (-> & -> & _).
    split; assumption.
Qed.

Lemma run_importsUnsubscribed (tr : list event) (s s' : state) :
  importsUnsubscribed s /\ importsResolved cfg s ->
  run groups cfg s tr = Some s' ->
  importsUnsubscribed s' /\ importsResolved cfg s'.
Proof.
  revert s; induction tr as [|ev tr IH]; intros s Hinv; cbn [run]; intros H.
  - now simplify_eq.
  - destruct (step groups cfg s ev) as [s1|] eqn:E; [| discriminate].
    eapply IH; [| exact H]. eapply step_importsUnsubscribed; eauto.
Qed.

Lemma start_importsUnsubscribed :
  importsUnsubscribed (start groups) /\ importsResolved cfg (start groups).
Proof. split; intros k Hk; cbn in Hk; now apply not_elem_of_nil in Hk. Qed.

Lemma elem_of_removeOne (w w' : string * element) (ws : list (string * element)) :
  w' ∈ ws -> w' <> w -> w' ∈ removeOne w ws.
Proof.
  induction ws as [|x ws IH]; intros Hin Hne; [now apply not_elem_of_nil in Hin |].
  cbn [removeOne]. apply elem_of_cons in Hin as [-> | Hin].
  - case_decide; [congruence | apply elem_of_cons; now left].
  - case_decide; [exact Hin | apply elem_of_cons; right; now apply IH].
Qed.

(** A pending visibility callback of a group whose key is in the registry
    issues a load, when [rewritePath] returns for the key, and leaves the
    key where it is. *)
Lemma visible_issues_import (s : state) (k : string) (e : element) (els : list element) :
  deferredModules s !! k = Some els ->
  PathResolver.rewritePath cfg k <> None ->
  (k, e) ∈ watches s ->
  exists s', step groups cfg s (Visible k e) = Some s'
    /\ imports s' = imports s ++ [k]
    /\ deferredModules s' = deferredModules s
    /\ watches s' = removeOne (k, e) (watches s).
Proof.
  intros Hk Hp Hw. cbn [step]. rewrite bool_decide_true; [| exact Hw].
  eexists; split; [reflexivity |].
  destruct (onVisible_fields k (dropWatch (k, e) s)) as (-> & _ & _ & -> & ->).
  unfold issues, guard. cbn [deferredModules dropWatch imports watches]. rewrite Hk.
  destruct (PathResolver.rewritePath cfg k); [repeat split | congruence].
Qed.

(** The guard as it works: a key that is gone from the registry, and that
    names no inherited member, stays gone, and no further load of it is
    issued. *)
Lemma step_removed_key (s s' : state) (ev : event) (k : string) :
  deferredModules s !! k = None ->
  JsObject.objectPrototype k = None ->
  step groups cfg s ev = Some s' ->
  deferredModules s' !! k = None /\ importCount k s' = importCount k s.
Proof.
  intros Hk Ho. unfold importCount. destruct ev as [|k' e|n r]; cbn [step]; intros H.
  - simplify_eq.
    now destruct (docShift_fields (elements (listeners s)) s) as (-> & _ & -> & _).
  - case_bool_decide as Hd; [| discriminate]. simplify_eq.
    destruct (onVisible_fields k' (dropWatch (k', e) s)) as (-> & _ & _ & _ & ->).
    cbn [deferredModules dropWatch]. split; [exact Hk |].
    destruct (issues cfg k' (dropWatch (k', e) s)) eqn:Ei; [| reflexivity].
    cbn [imports dropWatch].
    rewrite filter_app, filter_cons, filter_nil.
    case_decide as Heq; [| now rewrite app_nil_r].
    subst k'. unfold issues, guard in Ei. cbn [deferredModules dropWatch] in Ei.
    rewrite Hk, Ho in Ei. now destruct (PathResolver.rewritePath cfg k).
  - destruct (imports s !! n) as [k'|]; [| discriminate].
    case_bool_decide as Hd; [discriminate |]. simplify_eq.
    destruct (settle_fields k' r (markSettled n s)) as (_ & -> & _ & _ & ->).
    cbn. split; [| reflexivity].
    destruct r; [| exact Hk]. rewrite lookup_delete. case_decide; [reflexivity | exact Hk].
Qed.

(** For a key on which [rewritePath] returns, the visibility callback of
    any element of the group unsubscribes the [docShift] handler of the
    group, whether or not it issues a load and however a load settles
    afterwards; from then on the handler is not subscribed and is not
    invoked again. *)
Lemma docShift_handler_unsubscribed
    (tr1 tr2 : list event) (k : string) (e : element) (s1 s2 : state) :
  PathResolver.rewritePath cfg k <> None ->
  run groups cfg (start groups) (tr1 ++ [Visible k e]) = Some s1 ->
  run groups cfg s1 tr2 = Some s2 ->
  (k ∉ listeners s1) /\ (k ∉ listeners s2) /\ firedCount k s2 = firedCount k s1.
Proof.
  intros Hp H1 H2. rewrite run_app in H1.
  destruct (run groups cfg (start groups) tr1) as [s0|]; [| discriminate].
  cbn [run] in H1.
  destruct (step groups cfg s0 (Visible k e)) as [s1'|] eqn:E; [| discriminate].
  simplify_eq. apply step_visible_unsubscribed in E.
  - split; [exact E |]. split.
    + intros Hin. apply E. now apply (run_listeners tr2 s1 s2 H2).
    + now apply (run_firedCount tr2 s1 s2).
  - unfold aborts. now destruct (PathResolver.rewritePath cfg k).
Qed.

(** C7, at a key on which [rewritePath] throws: when the guard of the
    callback is open and [rewritePath] throws for the key, the callback is
    left before [removeListener]: the handler of the group stays
    subscribed, no load is issued, and the next [docShift] signal invokes
    the handler again. *)
Theorem throwing_key_stays_subscribed
    (s : state) (k : string) (e : element) (els : list element) :
  deferredModules s !! k = Some els ->
  PathResolver.rewritePath cfg k = None ->
  (k, e) ∈ watches s ->
  k ∈ listeners s ->
  exists s1 s2,
    step groups cfg s (Visible k e) = Some s1
    /\ k ∈ listeners s1
    /\ imports s1 = imports s
    /\ step groups cfg s1 DocShift = Some s2
    /\ firedCount k s2 = S (firedCount k s1).
Proof.
  intros Hk Hp Hw Hl. cbn [step]. rewrite bool_decide_true; [| exact Hw].
  eexists; eexists. split; [reflexivity |].
  destruct (onVisible_fields k (dropWatch (k, e) s)) as (_ & L1 & F1 & _ & I1).
  assert (Ha : aborts cfg k (dropWatch (k, e) s) = true).
  { unfold aborts, guard. cbn [deferredModules dropWatch]. now rewrite Hp, Hk. }
  assert (Hi : issues cfg k (dropWatch (k, e) s) = false).
  { unfold issues. now rewrite Hp. }
  rewrite Ha in L1. rewrite Hi in I1. cbn [listeners imports dropWatch] in L1, I1.
  split; [now rewrite L1 |]. split; [exact I1 |]. split; [reflexivity |].
  unfold firedCount.
  destruct (docShift_fields
              (elements (listeners (onVisible cfg k (dropWatch (k, e) s))))
              (onVisible cfg k (dropWatch (k, e) s))) as (_ & _ & _ & ->).
  rewrite filter_app, length_app, L1.
  assert (Hone : List.length (filter (fun x => x = k) (elements (listeners s))) = 1).
  { assert (Hnd : NoDup (elements (listeners s))) by apply NoDup_elements.
    assert (Hin : k ∈ elements (listeners s)) by now apply elem_of_elements.
    revert Hnd Hin. generalize (elements (listeners s)) as ks.
    induction ks as [|x ks IH]; intros Hnd Hin; [now apply not_elem_of_nil in Hin |].
    apply NoDup_cons in Hnd as [Hx Hnd]. rewrite filter_cons.
    case_decide as Heq.
    - subst x. cbn [List.length]. now rewrite (filter_key_not_in k ks Hx).
    - apply elem_of_cons in Hin as [Hin | Hin]; [congruence | now apply IH]. }
  rewrite Hone. lia.
Qed.

(** C2, at two visible elements: with the key in the registry and the
    callbacks of two elements of the group pending, both callbacks issue a
    load of the key, and the key is still in the registry afterwards. The
    key is one for which [rewritePath] returns. *)
Theorem two_visible_elements_two_loads
    (s : state) (k : string) (e1 e2 : element) (els : list element) :
  deferredModules s !! k = Some els ->
  PathResolver.rewritePath cfg k <> None ->
  (k, e1) ∈ watches s ->
  (k, e2) ∈ watches s ->
  e1 <> e2 ->
  exists s', run groups cfg s [Visible k e1; Visible k e2] = Some s'
    /\ imports s' = imports s ++ [k; k]
    /\ deferredModules s' !! k = Some els.
Proof.
  intros Hk Hp H1 H2 Hne.
  destruct (visible_issues_import s k e1 els Hk Hp H1) as (s1 & E1 & I1 & D1 & W1).
  assert (Hk1 : deferredModules s1 !! k = Some els) by now rewrite D1.
  assert (H2' : (k, e2) ∈ watches s1).
  { rewrite W1. apply elem_of_removeOne; [exact H2 | congruence]. }
  destruct (visible_issues_import s1 k e2 els Hk1 Hp H2') as (s2 & E2 & I2 & D2 & _).
  exists s2. cbn [run]. rewrite E1, E2. split; [reflexivity |]. split.
  - rewrite I2, I1, <- app_assoc. reflexivity.
  - now rewrite D2.
Qed.

(** C4, at a rejected lazy load: the rejection only reports the error. The
    registry is as it was before (only a fulfilled load deletes a key), so
    the key of the failed load is still there; the handler of the group is
    unsubscribed already, and a visibility callback of the group that is
    still pending finds the guard open and issues the load again. *)
Theorem rejected_lazy_load_keeps_key
    (tr : list event) (s s' : state) (n : nat) (k : string) :
  run groups cfg (start groups) tr = Some s ->
  imports s !! n = Some k ->
  step groups cfg s (Settle n Rejected) = Some s' ->
  deferredModules s' = deferredModules s
  /\ imports s' = imports s
  /\ (k ∉ listeners s')
  /\ (forall e els, deferredModules s' !! k = Some els -> (k, e) ∈ watches s' ->
        exists s'', step groups cfg s' (Visible k e) = Some s''
          /\ imports s'' = imports s' ++ [k]).
Proof.
  intros Hrun Hn Hstep.
  destruct (run_importsUnsubscribed tr _ _ start_importsUnsubscribed Hrun)
    as [Hinv Hres].
  pose proof (step_listeners s s' _ Hstep) as Hsub.
  assert (Hin : k ∈ imports s) by (apply list_elem_of_lookup; now exists n).
  cbn [step] in Hstep. rewrite Hn in Hstep.
  case_bool_decide as Hd; [discriminate |]. simplify_eq.
  destruct (settle_fields k Rejected (markSettled n s)) as (_ & Hi & _ & _ & Hdm).
  cbn [deferredModules imports markSettled] in Hi, Hdm.
  split; [exact Hdm |]. split; [exact Hi |]. split.
  - intros Hl. apply (Hinv k Hin). now apply Hsub.
  - intros e els He Hw.
    destruct (visible_issues_import _ k e els He (Hres k Hin) Hw) as (s'' & E & I & _).
    now exists s''.
Qed.

End Group.

Lemma throwing_key_stays_subscribed_witness :
  let K := "%hasOwnProperty%/x.mjs" in
  let G := Inputs.throwingGroup in
  exists s1 s2,
    step G Inputs.sourceEnv (Inputs.stateAfterIn G [DocShift]) (Visible K 1) = Some s1
    /\ K ∈ listeners s1
    /\ imports s1 = imports (Inputs.stateAfterIn G [DocShift])
    /\ step G Inputs.sourceEnv s1 DocShift = Some s2
    /\ firedCount K s2 = S (firedCount K s1).
Proof.
  cbn zeta.
  apply (throwing_key_stays_subscribed Inputs.throwingGroup Inputs.sourceEnv
           (Inputs.stateAfterIn Inputs.throwingGroup [DocShift])
           "%hasOwnProperty%/x.mjs" 1 [1; 2]).
  - vm_compute. reflexivity.
  - vm_compute. reflexivity.
  - apply list_elem_of_In. vm_compute. repeat first [left; reflexivity | right].
  - apply elem_of_elements, list_elem_of_In. vm_compute.
    repeat first [left; reflexivity | right].
Defined.

(** The whole run for a key on which [rewritePath] throws: every
    visibility callback leaves the handler subscribed, and every further
    [docShift] signal invokes it again. *)
Example throwing_key_run :
  let K := "%hasOwnProperty%/x.mjs" in
  let s := Inputs.stateAfterIn Inputs.throwingGroup
             [DocShift; Visible K 1; DocShift; Visible K 2; DocShift] in
  elements (listeners s) = [K] /\ imports s = [] /\ firedCount K s = 3.
Proof. vm_compute. repeat split. Qed.

Lemma docShift_handler_unsubscribed_example :
  let K := "./lazy.mjs" in
  let s1 := Inputs.stateAfter [DocShift; Visible K 1] in
  let s2 := Inputs.stateAfter
              [DocShift; Visible K 1; Settle 0 Rejected; DocShift; Visible K 2] in
  (K ∉ listeners s1) /\ (K ∉ listeners s2) /\ firedCount K s2 = firedCount K s1.
Proof.
  cbn zeta.
  apply (docShift_handler_unsubscribed Inputs.oneGroup Inputs.sourceEnv [DocShift]
           [Settle 0 Rejected; DocShift; Visible "./lazy.mjs" 2] "./lazy.mjs" 1);
    [vm_compute; discriminate | vm_compute; reflexivity | vm_compute; reflexivity].
Qed.

Lemma two_visible_elements_two_loads_witness :
  exists s', run Inputs.oneGroup Inputs.sourceEnv (Inputs.stateAfter [DocShift])
               [Visible "./lazy.mjs" 1; Visible "./lazy.mjs" 2] = Some s'
    /\ imports s' = imports (Inputs.stateAfter [DocShift]) ++ ["./lazy.mjs"; "./lazy.mjs"]
    /\ deferredModules s' !! "./lazy.mjs" = Some [1; 2].
Proof.
  apply (two_visible_elements_two_loads Inputs.oneGroup Inputs.sourceEnv
           (Inputs.stateAfter [DocShift]) "./lazy.mjs" 1 2 [1; 2]).
  - vm_compute. reflexivity.
  - vm_compute. discriminate.
  - apply list_elem_of_In. vm_compute. repeat first [left; reflexivity | right].
  - apply list_elem_of_In. vm_compute. repeat first [left; reflexivity | right].
  - discriminate.
Defined.

(** The whole run: both loads are issued before either settles, and both
    fulfilled loads call [init] with the elements of the group. *)
Example two_visible_elements_two_inits :
  let s := Inputs.stateAfter
             [DocShift; Visible "./lazy.mjs" 1; Visible "./lazy.mjs" 2;
              Settle 0 (Fulfilled Inputs.plainModule);
              Settle 1 (Fulfilled Inputs.plainModule)] in
  imports s = ["./lazy.mjs"; "./lazy.mjs"]
  /\ initCalls s = [("./lazy.mjs", [1; 2]); ("./lazy.mjs", [1; 2])].
Proof. vm_compute. split; reflexivity. Qed.

(** The same in a run: after the load of the group is rejected its key is
    still in the registry, and the visibility callback of the second
    element issues the load a second time. *)
Lemma rejected_lazy_load_reattempted :
  let K := "./lazy.mjs" in
  let tr := [DocShift; Visible K 1; Settle 0 Rejected] in
  (deferredModules <$> run Inputs.oneGroup Inputs.sourceEnv (start Inputs.oneGroup) tr)
    ≫= (.!! K)
  = Some [1; 2]
  /\ imports <$> run Inputs.oneGroup Inputs.sourceEnv (start Inputs.oneGroup)
                   (tr ++ [Visible K 2])
     = Some [K; K].
Proof. vm_compute. split; reflexivity. Qed.

Lemma rejected_lazy_load_keeps_key_witness :
  let K := "./lazy.mjs" in
  let s := Inputs.stateAfter [DocShift; Visible K 1] in
  let s' := Inputs.stateAfter [DocShift; Visible K 1; Settle 0 Rejected] in
  deferredModules s' = deferredModules s
  /\ imports s' = imports s
  /\ (K ∉ listeners s')
  /\ (forall e els, deferredModules s' !! K = Some els -> (K, e) ∈ watches s' ->
        exists s'', step Inputs.oneGroup Inputs.sourceEnv s' (Visible K e) = Some s''
          /\ imports s'' = imports s' ++ [K]).
Proof.
  cbn zeta.
  apply (rejected_lazy_load_keeps_key Inputs.oneGroup Inputs.sourceEnv
           [DocShift; Visible "./lazy.mjs" 1] _ _ 0 "./lazy.mjs");
    vm_compute; reflexivity.
Defined.

End LazyFacts.

(** ** Path resolution, case by case *)

Module PathCasesFacts.
Import JsString JsStringFacts URLSearchParams URLSearchParamsFacts.
Import PathResolver PathResolverFacts PathCases.

Lemma lineTerminatorAt_cut (c : ascii) (s rest : string) :
  lineTerminatorAt (String c (s +:+ String "%" rest)) = false ->
  lineTerminatorAt (String c s) = false.
Proof.
  unfold lineTerminatorAt.
  destruct (Ascii.eqb c "010"), (Ascii.eqb c "013"), (Ascii.eqb c "226");
    cbn [orb andb]; try discriminate; try reflexivity.
  destruct s as [|d [|x s]]; cbn [String.append]; intros H;
    [reflexivity | reflexivity | exact H].
Qed.

Lemma lazyUntilPercent_sound (s name : string) :
  lazyUntilPercent s = Some name ->
  aliasName name = true /\ exists rest, s = name +:+ String "%" rest.
Proof.
  revert name; induction s as [|c s IH]; intros name H; [discriminate |].
  cbn [lazyUntilPercent] in H.
  destruct (Ascii.eqb_spec c "%") as [-> | Hc].
  - injection H as <-. split; [reflexivity | now exists s].
  - destruct (lineTerminatorAt (String c s)) eqn:Hl; [discriminate |].
    destruct (lazyUntilPercent s) as [n|] eqn:E; [| discriminate].
    injection H as <-. destruct (IH n eq_refl) as [Hn [rest ->]].
    split; [| now exists rest].
    cbn [aliasName]. rewrite Hn, (lineTerminatorAt_cut c n rest Hl).
    now destruct (Ascii.eqb_spec c "%").
Qed.

(** X1: The regular expression [^%(.*?)%] matches exactly the keys that begin
    with [%name%] for a name without [%] and without a line terminator;
    the match is that token and the group is the name. *)
Theorem execCustomPath_spec (uri whole name : string) :
  execCustomPath uri = Some (whole, name)
  <-> aliasName name = true
      /\ whole = "%" +:+ name +:+ "%"
      /\ exists rest, uri = "%" +:+ name +:+ "%" +:+ rest.
Proof.
  split.
  - destruct uri as [|c rest]; cbn [execCustomPath]; [discriminate |].
    destruct (Ascii.eqb_spec c "%") as [-> | _]; [| discriminate].
    destruct (lazyUntilPercent rest) as [n|] eqn:E; [| discriminate].
    intros H. injection H as <- <-.
    destruct (lazyUntilPercent_sound rest n E) as [Hn [r ->]].
    split; [exact Hn |]. split; [reflexivity | now exists r].
  - intros (Hn & -> & rest & ->). now apply execCustomPath_token.
Qed.

Lemma queryParams_relative (e : env) (key : string) :
  aliasOf e key = None ->
  queryParams e key = nonceParams e ++ debugParams e.
Proof.
  intros H. unfold queryParams, nonceParams. rewrite H.
  now destruct (SITE_NONCE e).
Qed.

Lemma aliasOf_no_percent (e : env) (c : ascii) (rest : string) :
  Ascii.eqb c "%" = false -> aliasOf e (String c rest) = None.
Proof. intros H. unfold aliasOf, execCustomPath. now rewrite H. Qed.

(** X2: A key that begins with [./] is rebased one level up, and the nonce,
    when there is one, leads the query. *)
Theorem relative_key_rebased (e : env) (rest : string) :
  rewritePath e ("./" +:+ rest)
  = Some ("./../" +:+ rest +:+ "?" +:+ toString (nonceParams e ++ debugParams e)).
Proof.
  assert (Ha : aliasOf e ("./" +:+ rest) = None) by now apply aliasOf_no_percent.
  rewrite rewritePath_eq, (queryParams_relative e _ Ha).
  unfold rewrittenUri. rewrite Ha.
  rewrite (replace_prefix "./" rest "./../" eq_refl).
  cbn. rewrite ?append_assoc. reflexivity.
Qed.

(** X3: In a key that begins with [../] the first [./] is the one inside
    [../]; replacing it turns [../] into [../../], one level further up. *)
Theorem parent_relative_key (e : env) (rest : string) :
  rewritePath e ("../" +:+ rest)
  = Some ("../../" +:+ rest +:+ "?" +:+ toString (nonceParams e ++ debugParams e)).
Proof.
  assert (Ha : aliasOf e ("../" +:+ rest) = None) by now apply aliasOf_no_percent.
  rewrite rewritePath_eq, (queryParams_relative e _ Ha).
  unfold rewrittenUri. rewrite Ha.
  assert (Hs : splitFirst "./" ("../" +:+ rest) = Some (".", rest)).
  { change ("../" +:+ rest) with (String "." ("./" +:+ rest)).
    cbn [splitFirst stripPrefix Ascii.eqb Bool.eqb].
    now rewrite (splitFirst_prefix "./" rest). }
  unfold replace. rewrite Hs.
  rewrite (getSubstitution_plain "./" "." rest "./../" eq_refl).
  cbn. rewrite ?append_assoc. reflexivity.
Qed.

(** X4: A key without [./] that takes the relative branch, an absolute URL for
    one, is left as it is and still gets the nonce. *)
Theorem key_without_dot_slash (e : env) (key : string) :
  aliasOf e key = None ->
  includes key "./" = false ->
  rewritePath e key
  = Some (key +:+ "?" +:+ toString (nonceParams e ++ debugParams e)).
Proof.
  intros Ha Hi.
  rewrite rewritePath_eq, (queryParams_relative e _ Ha).
  unfold rewrittenUri, replace. rewrite Ha.
  unfold includes in Hi. now destruct (splitFirst "./" key).
Qed.

Lemma key_without_dot_slash_witness :
  rewritePath (Inputs.exampleEnv (Some "abc") "") "https://cdn.example.com/a.mjs"
  = Some "https://cdn.example.com/a.mjs?nonce=abc".
Proof.
  apply (key_without_dot_slash (Inputs.exampleEnv (Some "abc") "")
           "https://cdn.example.com/a.mjs"); vm_compute; reflexivity.
Defined.

Lemma objectPrototype_aliasName (name : string) (m : JsObject.inherited) :
  JsObject.objectPrototype name = Some m -> aliasName name = true.
Proof.
  unfold JsObject.objectPrototype.
  repeat (match goal with
          | |- context [String.eqb name ?x] =>
              destruct (String.eqb_spec name x) as [-> | _]; [reflexivity |]
          end; cbn [existsb orb]).
  discriminate.
Qed.

(** X5: A token that names a member of [Object.prototype] and that the table
    does not register takes the alias branch, because the table is read
    through an object literal: the key gets no nonce and is not rebased.
    For [%constructor%/] the token is replaced by itself, for [toString],
    [isPrototypeOf] and [__proto__] by a fixed text, and for the other
    members the replacement throws. *)
Theorem inherited_token_takes_alias_branch
    (e : env) (name rest : string) (m : JsObject.inherited) :
  dynImportPaths e !! name = None ->
  JsObject.objectPrototype name = Some m ->
  rewritePath e (aliasedKey name rest)
  = match m with
    | JsObject.Echo =>
        Some (aliasedKey name rest +:+ "?" +:+ toString (debugParams e))
    | JsObject.Literal text =>
        Some (text +:+ rest +:+ "?" +:+ toString (debugParams e))
    | JsObject.Raises => None
    end.
Proof.
  intros Hn Hm. pose proof (objectPrototype_aliasName name m Hm) as Ha.
  assert (Hal : aliasOf e (aliasedKey name rest)
                = Some ("%" +:+ name +:+ "%", Inherited m)).
  { unfold aliasOf.
    change (aliasedKey name rest) with ("%" +:+ name +:+ "%" +:+ ("/" +:+ rest)).
    now rewrite (execCustomPath_token name _ Ha), Hn, Hm. }
  rewrite rewritePath_eq. unfold rewrittenUri, queryParams. rewrite Hal.
  unfold replaceInherited. rewrite aliasedKey_pattern at 1. rewrite splitFirst_prefix.
  destruct m; cbn [fmap option_fmap option_map]; [| | reflexivity].
  - rewrite (aliasedKey_pattern name rest). reflexivity.
  - change (EmptyString +:+ text +:+ rest) with (text +:+ rest).
    now rewrite append_assoc.
Qed.

Lemma inherited_token_takes_alias_branch_witness :
  let e := {| dynImportPaths := dynImportPaths_src; SITE_NONCE := Some "abc";
              location_search := EmptyString; randomUUID := "u-1" |} in
  rewritePath e "%constructor%/foo.mjs" = Some "%constructor%/foo.mjs?"
  /\ rewritePath e "%hasOwnProperty%/foo.mjs" = None.
Proof.
  cbn zeta. split.
  - apply (inherited_token_takes_alias_branch
             {| dynImportPaths := dynImportPaths_src; SITE_NONCE := Some "abc";
                location_search := EmptyString; randomUUID := "u-1" |}
             "constructor" "foo.mjs" JsObject.Echo); vm_compute; reflexivity.
  - apply (inherited_token_takes_alias_branch
             {| dynImportPaths := dynImportPaths_src; SITE_NONCE := Some "abc";
                location_search := EmptyString; randomUUID := "u-1" |}
             "hasOwnProperty" "foo.mjs" JsObject.Raises); vm_compute; reflexivity.
Defined.

(** X6: A registered token that is not followed by [/] anywhere in the key
    takes the alias branch all the same: the key is returned with its token
    in place, not rebased and without a nonce. *)
Theorem alias_without_separator (e : env) (name prefix rest : string) :
  aliasName name = true ->
  dynImportPaths e !! name = Some prefix ->
  truthy prefix = true ->
  includes ("%" +:+ name +:+ "%" +:+ rest) (("%" +:+ name +:+ "%") +:+ "/") = false ->
  rewritePath e ("%" +:+ name +:+ "%" +:+ rest)
  = Some (("%" +:+ name +:+ "%" +:+ rest) +:+ "?" +:+ toString (debugParams e)).
Proof.
  intros Hn Hp Ht Hi.
  rewrite rewritePath_eq. unfold rewrittenUri, queryParams.
  rewrite (aliasOf_registered e name prefix rest Hn Hp Ht).
  unfold replace. unfold includes in Hi.
  now destruct (splitFirst (("%" +:+ name +:+ "%") +:+ "/") ("%" +:+ name +:+ "%" +:+ rest)).
Qed.

Lemma alias_without_separator_witness :
  rewritePath (Inputs.exampleEnv (Some "abc") "") "%assets%foo.mjs"
  = Some "%assets%foo.mjs?".
Proof.
  apply (alias_without_separator (Inputs.exampleEnv (Some "abc") "")
           "assets" "https://example.com/modules/" "foo.mjs");
    vm_compute; reflexivity.
Defined.

Lemma splitFirst_cons (pat : string) (c : ascii) (s : string) :
  splitFirst pat (String c s)
  = match stripPrefix pat (String c s) with
    | Some rest => Some (EmptyString, rest)
    | None =>
        match splitFirst pat s with
        | Some (b, a) => Some (String c b, a)
        | None => None
        end
    end.
Proof. reflexivity. Qed.

Lemma includes_app (a pat b : string) : includes (a +:+ pat +:+ b) pat = true.
Proof.
  unfold includes. induction a as [|c a IH].
  - cbn [String.append]. now rewrite splitFirst_prefix.
  - cbn [String.append]. rewrite splitFirst_cons.
    destruct (stripPrefix pat (String c (a +:+ pat +:+ b))); [reflexivity |].
    now destruct (splitFirst pat (a +:+ pat +:+ b)) as [[? ?]|].
Qed.

(** X7: Debug mode is found by substring: whenever [debug] occurs anywhere in
    [location.search], inside another word as well, the [debug] and [random]
    parameters close the query of every key on which [rewritePath]
    returns; it throws on the keys of [raisesOn] only. *)
Theorem debug_found_by_substring (e : env) (key a b : string) :
  location_search e = a +:+ "debug" +:+ b ->
  match rewriteParts e key with
  | Some (u, ps) =>
      exists front,
        ps = front ++ [("debug", "true"); ("random", randomUUID e)]
        /\ (front = [] \/ exists nonce, front = [("nonce", nonce)])
  | None => raisesOn e key = true
  end.
Proof.
  intros H. rewrite rewriteParts_eq.
  destruct (rewrittenUri e key) as [u|] eqn:E; cbn;
    [| now apply rewrittenUri_None].
  assert (Hd : debugParams e = [("debug", "true"); ("random", randomUUID e)]).
  { unfold debugParams. now rewrite H, includes_app. }
  unfold queryParams. rewrite Hd.
  destruct (aliasOf e key); [exists []; split; [reflexivity | now left] |].
  destruct (SITE_NONCE e) as [n|].
  - exists [("nonce", n)]. split; [reflexivity | right; now exists n].
  - exists []. split; [reflexivity | now left].
Qed.

Lemma debug_found_by_substring_witness :
  rewritePath (Inputs.exampleEnv None "?nodebug=1") "./foo.mjs"
  = Some "./../foo.mjs?debug=true&random=u-1"
  /\ match rewriteParts (Inputs.exampleEnv None "?nodebug=1") "./foo.mjs" with
     | Some (u, ps) =>
         exists front,
           ps = front ++ [("debug", "true"); ("random", "u-1")]
           /\ (front = [] \/ exists nonce, front = [("nonce", nonce)])
     | None => raisesOn (Inputs.exampleEnv None "?nodebug=1") "./foo.mjs" = true
     end.
Proof.
  split; [vm_compute; reflexivity |].
  apply (debug_found_by_substring (Inputs.exampleEnv None "?nodebug=1")
           "./foo.mjs" "?no" "=1").
  reflexivity.
Defined.

Lemma encodeByte_no_delimiter (c : ascii) :
  count "&" (encodeByte c) = 0 /\ count "=" (encodeByte c) = 0
  /\ count "#" (encodeByte c) = 0.
Proof.
  destruct c as [b0 b1 b2 b3 b4 b5 b6 b7].
  destruct b0, b1, b2, b3, b4, b5, b6, b7; vm_compute; repeat split.
Qed.

Lemma encode_no_delimiter (s : string) :
  count "&" (encode s) = 0 /\ count "=" (encode s) = 0 /\ count "#" (encode s) = 0.
Proof.
  induction s as [|c s (IH1 & IH2 & IH3)]; [repeat split |].
  destruct (encodeByte_no_delimiter c) as (H1 & H2 & H3).
  cbn [encode]. rewrite !count_app, IH1, IH2, IH3, H1, H2, H3. repeat split.
Qed.

Lemma toString_cons (n v : string) (p : string * string) (ps : t) :
  toString ((n, v) :: p :: ps)
  = encode n +:+ "=" +:+ encode v +:+ "&" +:+ toString (p :: ps).
Proof. reflexivity. Qed.

Lemma toString_delimiters (ps : t) :
  count "=" (toString ps) = List.length ps
  /\ count "&" (toString ps) = Nat.pred (List.length ps)
  /\ count "#" (toString ps) = 0.
Proof.
  induction ps as [|[n v] ps (IH1 & IH2 & IH3)]; [repeat split |].
  destruct (encode_no_delimiter n) as (N1 & N2 & N3).
  destruct (encode_no_delimiter v) as (V1 & V2 & V3).
  destruct ps as [|p ps].
  - change (toString [(n, v)]) with (encode n +:+ "=" +:+ encode v).
    rewrite !count_app, N1, N2, N3, V1, V2, V3. repeat split.
  - rewrite toString_cons, !count_app, N1, N2, N3, V1, V2, V3, IH1, IH2, IH3.
    cbn. repeat split; lia.
Qed.

(** X8: Whatever characters the nonce and the UUID hold, the query that
    [rewritePath] appends has one [=] per parameter, one [&] between
    parameters and no [#] or [?]: a value cannot add a parameter or start a
    fragment. At most three parameters are appended. This holds of every
    key on which [rewritePath] returns; it throws on the keys of [raisesOn]
    only. *)
Theorem appended_query_is_well_formed (e : env) (key : string) :
  match rewriteParts e key with
  | Some (u, ps) =>
      count "=" (toString ps) = List.length ps
      /\ count "&" (toString ps) = Nat.pred (List.length ps)
      /\ count "#" (toString ps) = 0
      /\ count "?" (toString ps) = 0
      /\ List.length ps <= 3
  | None => raisesOn e key = true
  end.
Proof.
  rewrite rewriteParts_eq.
  destruct (rewrittenUri e key) as [u|] eqn:E; cbn;
    [| now apply rewrittenUri_None].
  destruct (toString_delimiters (queryParams e key)) as (H1 & H2 & H3).
  repeat split; [exact H1 | exact H2 | exact H3 | apply toString_no_question |].
  unfold queryParams, debugParams.
  destruct (aliasOf e key), (SITE_NONCE e), (includes (location_search e) "debug");
    cbn; lia.
Qed.

End PathCasesFacts.

(** ** Runs of the eager loads *)

Module EagerRunsFacts.
Import Host Eager EagerFacts EagerRuns.

(** The loads whose success handler runs in a schedule without repeated
    jobs: distinct, fulfilled loads of the batch. *)
Lemma thenJobs_indices (b : batch) (sched : list job) :
  NoDup sched ->
  NoDup (filter (fun j => isThenOf b j = true) sched).*1
  /\ forall i, i ∈ (filter (fun j => isThenOf b j = true) sched).*1 ->
       (i, OnThen) ∈ sched
       /\ exists l, loads b !! i = Some l /\ isFulfilled (result l) = true.
Proof.
  intros Hnd.
  assert (HT : forall j, j ∈ filter (fun j => isThenOf b j = true) sched ->
                 j ∈ sched /\ isThenOf b j = true).
  { intros j Hj. apply list_elem_of_filter in Hj. tauto. }
  split.
  - apply NoDup_fmap_2_strong; [| now apply NoDup_filter].
    intros [i1 s1] [i2 s2] H1 H2 Heq. cbn in Heq. subst i2.
    apply HT in H1 as [_ H1]. apply HT in H2 as [_ H2].
    apply isThenOf_inv in H1 as [H1 _]. apply isThenOf_inv in H2 as [H2 _].
    cbn in H1, H2. congruence.
  - intros i Hi. apply list_elem_of_fmap in Hi as [[i' st] [-> Hj]].
    apply HT in Hj as [Hin Hj].
    destruct (isThenOf_inv b _ Hj) as [Hst Hl]. cbn in Hst. subst st.
    split; [exact Hin | exact Hl].
Qed.

Lemma thenJobs_in_range (b : batch) (sched : list job) :
  NoDup sched ->
  forall i, i ∈ (filter (fun j => isThenOf b j = true) sched).*1 ->
    i ∈ seq 0 (List.length (loads b)).
Proof.
  intros Hnd i Hi.
  destruct (thenJobs_indices b sched Hnd) as [_ H].
  destruct (H i Hi) as [_ [l [Hl _]]].
  apply elem_of_seq. split; [lia |]. simpl. now apply lookup_lt_Some in Hl.
Qed.

Lemma thenCount_le (b : batch) (sched : list job) :
  NoDup sched -> thenCount b sched <= List.length (loads b).
Proof.
  intros Hnd. unfold thenCount.
  destruct (thenJobs_indices b sched Hnd) as [HndI _].
  pose proof (submseteq_length _ _
                (NoDup_submseteq _ _ HndI (thenJobs_in_range b sched Hnd))) as H.
  now rewrite length_seq, length_fmap in H.
Qed.

(** X9: [c] stays between 0 and [totals] when [totals] is the number of eager
    entries and no job runs twice. *)
Theorem counter_stays_in_range (b : batch) (sched : list job) :
  totals b = Z.of_nat (List.length (loads b)) ->
  NoDup sched ->
  (0 <= c (dynImports b sched) <= totals b)%Z.
Proof.
  intros Ht Hnd. pose proof (thenCount_le b sched Hnd) as Hle.
  unfold dynImports. rewrite runJobs_c. cbn [start c]. lia.
Qed.

Lemma nodup_chain (i : nat) : NoDup (chain i).
Proof.
  unfold chain. repeat (apply NoDup_cons; split); [ | | | apply NoDup_nil_2 ];
    intros H; repeat (apply elem_of_cons in H as [H | H]; [discriminate |]);
    now apply not_elem_of_nil in H.
Qed.

Lemma counter_stays_in_range_witness :
  (0 <= c (dynImports Inputs.oneFailing (chain 0)) <= 1)%Z.
Proof.
  apply (counter_stays_in_range Inputs.oneFailing (chain 0));
    [reflexivity | apply nodup_chain].
Defined.

(** X10: The callback is called only when every eager entry has been loaded:
    if it was called at all, each load of the batch is fulfilled and its
    success handler has run. *)
Theorem callback_only_after_all_loaded (b : batch) (sched : list job) :
  totals b = Z.of_nat (List.length (loads b)) ->
  NoDup sched ->
  0 < callbackCalls (dynImports b sched) ->
  forall i l, loads b !! i = Some l ->
    isFulfilled (result l) = true /\ (i, OnThen) ∈ sched.
Proof.
  intros Ht Hnd Hcb i l Hi.
  destruct (thenJobs_indices b sched Hnd) as [HndI HI].
  pose proof (NoDup_submseteq _ _ HndI (thenJobs_in_range b sched Hnd)) as Hsub.
  assert (Hlen : List.length (loads b) <= thenCount b sched).
  { destruct (Nat.le_gt_cases (List.length (loads b)) (thenCount b sched)) as [H | H];
      [exact H |].
    unfold dynImports in Hcb. rewrite runJobs_no_callback in Hcb;
      [cbn in Hcb; lia | cbn [start c]; lia]. }
  assert (Hperm : (filter (fun j => isThenOf b j = true) sched).*1
                    ≡ₚ seq 0 (List.length (loads b))).
  { apply submseteq_length_Permutation; [exact Hsub |].
    rewrite length_seq, length_fmap. exact Hlen. }
  assert (Hin : i ∈ (filter (fun j => isThenOf b j = true) sched).*1).
  { rewrite Hperm. apply elem_of_seq. apply lookup_lt_Some in Hi. lia. }
  destruct (HI i Hin) as [Hj [l' [Hl' Hf]]].
  rewrite Hi in Hl'. injection Hl' as <-. split; [exact Hf | exact Hj].
Qed.

Lemma callback_only_after_all_loaded_witness :
  0 < callbackCalls (dynImports Inputs.twoLoading (oneByOne [1; 0]))
  /\ forall i l, loads Inputs.twoLoading !! i = Some l ->
       isFulfilled (result l) = true /\ (i, OnThen) ∈ oneByOne [1; 0].
Proof.
  split; [vm_compute; lia |].
  apply (callback_only_after_all_loaded Inputs.twoLoading (oneByOne [1; 0]));
    [reflexivity | | vm_compute; lia].
  change (oneByOne [1; 0]) with (chain 1 ++ chain 0).
  apply NoDup_app. split; [apply nodup_chain |]. split; [| apply nodup_chain].
  intros j H1 H0. unfold chain in H1, H0.
  repeat (apply elem_of_cons in H1 as [H1 | H1];
          [subst j; repeat (apply elem_of_cons in H0 as [H0 | H0]; [discriminate |]);
           now apply not_elem_of_nil in H0 |]).
  now apply not_elem_of_nil in H1.
Defined.

(** X11: When the scanner reports more than there are eager entries, [c] cannot
    reach 0 and the callback is never called. *)
Theorem excess_totals_never_complete (b : batch) (sched : list job) :
  (Z.of_nat (List.length (loads b)) < totals b)%Z ->
  NoDup sched ->
  callbackCalls (dynImports b sched) = 0.
Proof.
  intros Ht Hnd. pose proof (thenCount_le b sched Hnd) as Hle.
  unfold dynImports. rewrite runJobs_no_callback; [reflexivity |].
  cbn [start c]. lia.
Qed.

Lemma excess_totals_never_complete_witness :
  callbackCalls
    (dynImports {| totals := 3; loads := loads Inputs.twoLoading |} (oneByOne [0]))
  = 0.
Proof.
  apply (excess_totals_never_complete
           {| totals := 3; loads := loads Inputs.twoLoading |} (oneByOne [0]));
    [vm_compute; reflexivity | apply nodup_chain].
Defined.

(** X12: Without eager entries nothing ever tests [c]: the callback is not
    called, not even with [totals] at 0. *)
Theorem empty_batch_never_completes (b : batch) (sched : list job) :
  loads b = [] ->
  dynImports b sched = start b /\ callbackCalls (dynImports b sched) = 0.
Proof.
  intros He.
  assert (H : forall s, runJobs b sched s = s).
  { induction sched as [|j sched IH]; intros s; [reflexivity |].
    rewrite runJobs_cons. unfold runJob at 1. rewrite He, lookup_nil. apply IH. }
  unfold dynImports. rewrite H. split; reflexivity.
Qed.

Lemma empty_batch_never_completes_witness :
  callbackCalls (dynImports {| totals := 0; loads := [] |} (chain 0)) = 0.
Proof.
  apply (empty_batch_never_completes {| totals := 0; loads := [] |} (chain 0)).
  reflexivity.
Defined.

Lemma finallyCount_cons (b : batch) (j : job) (sched : list job) :
  finallyCount b (j :: sched)
  = (if isFinallyOf b j then 1 else 0) + finallyCount b sched.
Proof.
  unfold finallyCount. rewrite filter_cons.
  destruct (isFinallyOf b j); case_decide; try discriminate; try congruence; reflexivity.
Qed.

Lemma runJob_at_zero (b : batch) (j : job) (s : state) :
  c s = 0%Z ->
  isThenOf b j = false ->
  c (runJob b j s) = 0%Z
  /\ callbackCalls (runJob b j s)
     = (if isFinallyOf b j then 1 else 0) + callbackCalls s.
Proof.
  intros Hc Ht. split; [rewrite runJob_c, Ht; lia |].
  unfold runJob, isFinallyOf, isThenOf in *. destruct j as [i st]; cbn [fst snd] in *.
  destruct (loads b !! i) as [l|]; [| now destruct st].
  destruct st, (result l); cbn [isFulfilled] in Ht; try discriminate;
    rewrite ?finallyHandler_callbackCalls, ?Hc; reflexivity.
Qed.

(** X13: The completion test has no memory: once [c] is 0, every [finally] job
    that still runs calls the callback again. *)
Theorem callback_once_per_late_finally (b : batch) (sched : list job) (s : state) :
  c s = 0%Z ->
  thenCount b sched = 0 ->
  callbackCalls (runJobs b sched s) = callbackCalls s + finallyCount b sched.
Proof.
  revert s; induction sched as [|j sched IH]; intros s Hc Ht.
  - unfold finallyCount. cbn. lia.
  - rewrite thenCount_cons in Ht. rewrite finallyCount_cons, runJobs_cons.
    assert (Hj : isThenOf b j = false) by (destruct (isThenOf b j); [lia | reflexivity]).
    rewrite Hj in Ht.
    destruct (runJob_at_zero b j s Hc Hj) as [Hc' Hk].
    rewrite (IH _ Hc' Ht), Hk. lia.
Qed.

Lemma callback_once_per_late_finally_witness :
  let s := runJobs Inputs.twoLoading
             [(0, OnThen); (1, OnThen); (0, OnCatch); (1, OnCatch)]
             (start Inputs.twoLoading) in
  callbackCalls (runJobs Inputs.twoLoading [(0, OnFinally); (1, OnFinally)] s) = 2.
Proof.
  cbn zeta.
  apply (callback_once_per_late_finally Inputs.twoLoading
           [(0, OnFinally); (1, OnFinally)]); vm_compute; reflexivity.
Defined.

Lemma thenHandler_initCalls (l : load) (m : moduleNs) (s : state) :
  initCalls (thenHandler l m s)
  = initCalls s ++ match mod_init m with
                   | NoInit => []
                   | _ => [(key l, elements l)]
                   end.
Proof.
  unfold thenHandler. destruct (mod_init m); cbn; [now rewrite app_nil_r | |]; reflexivity.
Qed.

Lemma finallyHandler_initCalls (s : state) :
  initCalls (finallyHandler s) = initCalls s.
Proof. unfold finallyHandler. now destruct (c s =? 0)%Z. Qed.

Lemma runJob_initCalls (b : batch) (j : job) (s : state) :
  initCalls (runJob b j s)
  = initCalls s ++ match initCallOf b j with Some x => [x] | None => [] end.
Proof.
  unfold runJob, initCallOf. destruct j as [i st]; cbn [fst snd].
  destruct (loads b !! i) as [l|]; [| destruct st; now rewrite app_nil_r].
  destruct st, (result l) as [m|];
    rewrite ?thenHandler_initCalls, ?finallyHandler_initCalls;
    try (now rewrite app_nil_r).
  now destruct (mod_init m).
Qed.

Lemma runJobs_initCalls (b : batch) (sched : list job) (s : state) :
  initCalls (runJobs b sched s) = initCalls s ++ omap (initCallOf b) sched.
Proof.
  revert s; induction sched as [|j sched IH]; intros s.
  - cbn. now rewrite app_nil_r.
  - rewrite runJobs_cons, IH, runJob_initCalls. cbn [omap list_omap].
    rewrite <- app_assoc. now destruct (initCallOf b j).
Qed.

Lemma initCallOf_inv (b : batch) (j : job) (x : string * list element) :
  initCallOf b j = Some x ->
  j.2 = OnThen /\ exists l, loads b !! j.1 = Some l /\ x = (key l, elements l).
Proof.
  unfold initCallOf. destruct j as [i st]; cbn [fst snd].
  destruct st; try discriminate.
  destruct (loads b !! i) as [l|]; [| discriminate].
  destruct (result l) as [m|]; [| discriminate].
  destruct (mod_init m); try discriminate; intros H; injection H as <-; eauto.
Qed.

(** X14: [init] is called by success handlers only: it has been called with a
    key and an element list exactly when the success handler of a fulfilled
    load with that key and those elements has run and its module exports a
    callable [init]. Rejected loads and modules without [init] add no
    call, and the elements are always the whole list of the entry. *)
Theorem init_called_for_loaded_modules_only
    (b : batch) (sched : list job) (k : string) (els : list element) :
  (k, els) ∈ initCalls (dynImports b sched)
  <-> exists i l m,
        (i, OnThen) ∈ sched /\ loads b !! i = Some l /\ result l = Fulfilled m
        /\ mod_init m <> NoInit /\ k = key l /\ els = elements l.
Proof.
  unfold dynImports. rewrite runJobs_initCalls. cbn [start initCalls app].
  rewrite list_elem_of_omap. split.
  - intros [[i st] [Hin E]]. unfold initCallOf in E. cbn [fst snd] in E.
    destruct st; try discriminate.
    destruct (loads b !! i) as [l|] eqn:Hl; [| discriminate].
    destruct (result l) as [m|] eqn:Hr; [| discriminate].
    exists i, l, m.
    destruct (mod_init m) eqn:Hm; try discriminate; injection E as <- <-;
      repeat split; auto; congruence.
  - intros (i & l & m & Hin & Hl & Hr & Hm & -> & ->).
    exists (i, OnThen). split; [exact Hin |].
    unfold initCallOf. cbn [fst snd]. rewrite Hl, Hr.
    now destruct (mod_init m).
Qed.

(** X15: With distinct keys and no job run twice, no entry has its [init]
    called twice. *)
Theorem init_called_at_most_once (b : batch) (sched : list job) :
  NoDup (key <$> loads b) ->
  NoDup sched ->
  NoDup (initCalls (dynImports b sched)).
Proof.
  intros Hk Hnd. unfold dynImports. rewrite runJobs_initCalls. cbn [start initCalls app].
  induction Hnd as [|j sched Hj Hnd IH]; [apply NoDup_nil_2 |].
  cbn [omap list_omap]. destruct (initCallOf b j) as [x|] eqn:E; [| exact IH].
  apply NoDup_cons. split; [| exact IH].
  intros Hin. apply list_elem_of_omap in Hin as [j' [Hj' E']].
  apply Hj.
  destruct (initCallOf_inv b j x E) as [Hs [l [Hl ->]]].
  destruct (initCallOf_inv b j' _ E') as [Hs' [l' [Hl' Heq]]].
  injection Heq as Hkey _.
  assert (Hi : j.1 = j'.1).
  { apply (NoDup_lookup (key <$> loads b) _ _ (key l) Hk);
      rewrite list_lookup_fmap; [now rewrite Hl | now rewrite Hl', Hkey]. }
  destruct j as [i st], j' as [i' st']. cbn in *. now subst.
Qed.

Lemma init_called_at_most_once_witness :
  NoDup (initCalls (dynImports Inputs.twoLoading (oneByOne [0]))).
Proof.
  apply (init_called_at_most_once Inputs.twoLoading (oneByOne [0]));
    [| apply nodup_chain].
  cbn. apply NoDup_cons. split; [| apply NoDup_singleton].
  intros H. apply list_elem_of_singleton in H. discriminate.
Defined.

Lemma quietBatch_lookup (b : batch) (i : nat) :
  loads (quietBatch b) !! i = quietLoad <$> loads b !! i.
Proof. cbn. apply list_lookup_fmap. Qed.

Lemma runJob_quiet (b : batch) (j : job) (s s' : state) :
  c s = c s' -> initCalls s = initCalls s' -> callbackCalls s = callbackCalls s' ->
  c (runJob b j s) = c (runJob (quietBatch b) j s')
  /\ initCalls (runJob b j s) = initCalls (runJob (quietBatch b) j s')
  /\ callbackCalls (runJob b j s) = callbackCalls (runJob (quietBatch b) j s').
Proof.
  intros Hc Hi Hk. unfold runJob. rewrite quietBatch_lookup.
  destruct j as [i st]; cbn [fst snd].
  destruct (loads b !! i) as [l|]; cbn [fmap option_fmap option_map]; [| auto].
  cbn [quietLoad result].
  destruct st, (result l) as [m|];
    rewrite ?thenHandler_c, ?thenHandler_initCalls, ?thenHandler_callbackCalls,
      ?finallyHandler_c, ?finallyHandler_initCalls, ?finallyHandler_callbackCalls;
    cbn [catchHandler say c initCalls callbackCalls mod_init key elements];
    rewrite ?Hc, ?Hi, ?Hk; repeat split; try reflexivity.
  destruct (mod_init m); reflexivity.
Qed.

(** X16: A throwing [init] changes nothing but the log: with every throwing
    [init] replaced by one that returns, the same jobs leave the same
    counter, the same calls of [init] and the same number of calls of the
    callback. *)
Theorem throwing_init_changes_only_the_log (b : batch) (sched : list job) :
  c (dynImports b sched) = c (dynImports (quietBatch b) sched)
  /\ initCalls (dynImports b sched) = initCalls (dynImports (quietBatch b) sched)
  /\ callbackCalls (dynImports b sched)
     = callbackCalls (dynImports (quietBatch b) sched).
Proof.
  unfold dynImports.
  assert (H : forall s s', c s = c s' -> initCalls s = initCalls s' ->
                callbackCalls s = callbackCalls s' ->
                c (runJobs b sched s) = c (runJobs (quietBatch b) sched s')
                /\ initCalls (runJobs b sched s)
                   = initCalls (runJobs (quietBatch b) sched s')
                /\ callbackCalls (runJobs b sched s)
                   = callbackCalls (runJobs (quietBatch b) sched s')).
  { induction sched as [|j sched IH]; intros s s' Hc Hi Hk; [now repeat split |].
    rewrite !runJobs_cons.
    destruct (runJob_quiet b j s s' Hc Hi Hk) as (Hc' & Hi' & Hk').
    now apply IH. }
  apply H; reflexivity.
Qed.

Lemma lastSegmentFrom_plain (acc s : string) :
  JsString.count "/" s = 0 -> lastSegmentFrom acc s = acc +:+ s.
Proof.
  revert acc; induction s as [|ch s IH]; intros acc H.
  - cbn. now rewrite JsStringFacts.append_nil_r.
  - cbn [JsString.count] in H. cbn [lastSegmentFrom].
    rewrite (Ascii.eqb_sym ch). destruct (Ascii.eqb "/" ch); [discriminate |].
    rewrite IH; [| exact H]. now rewrite JsStringFacts.append_assoc.
Qed.

Lemma lastSegmentFrom_slash (acc dir file : string) :
  lastSegmentFrom acc (dir +:+ String "/" file) = lastSegmentFrom EmptyString file.
Proof.
  revert acc; induction dir as [|ch dir IH]; intros acc; cbn [String.append lastSegmentFrom].
  - reflexivity.
  - destruct (Ascii.eqb ch "/"); apply IH.
Qed.

(** X17: A module without [NAME] is labelled in the log by what follows the last
    [/] of its key, the file name. *)
Theorem label_is_file_name
    (l : load) (m : moduleNs) (s : state) (dir file : string) :
  key l = dir +:+ "/" +:+ file ->
  JsString.count "/" file = 0 ->
  mod_NAME m = None ->
  exists rest, log (thenHandler l m s) = log s ++ LogInfo file Imported :: rest.
Proof.
  intros Hk Hf Hn. unfold thenHandler. rewrite Hn, Hk.
  assert (Hl : lastSegment (dir +:+ "/" +:+ file) = file).
  { unfold lastSegment. change ("/" +:+ file) with (String "/" file).
    now rewrite lastSegmentFrom_slash, lastSegmentFrom_plain. }
  rewrite Hl.
  destruct (mod_init m); cbn; rewrite <- ?app_assoc; eauto.
Qed.

Lemma label_is_file_name_witness :
  exists rest,
    log (thenHandler {| key := "./modules/hnl.colortool.mjs"; elements := [1];
                        result := Fulfilled Inputs.plainModule |}
           Inputs.plainModule (start Inputs.oneFailing))
    = log (start Inputs.oneFailing) ++ LogInfo "hnl.colortool.mjs" Imported :: rest.
Proof.
  apply (label_is_file_name _ _ _ "./modules" "hnl.colortool.mjs"); reflexivity.
Defined.

End EagerRunsFacts.

(** ** Runs of the deferred groups *)

Module LazyRunsFacts.
Import Host Lazy LazyFacts LazyRuns.

Section Group.

Variable groups : gmap string (list element).
Variable cfg : PathResolver.env.

Lemma run_removed_key (tr : list event) (s s' : state) (k : string) :
  deferredModules s !! k = None ->
  JsObject.objectPrototype k = None ->
  run groups cfg s tr = Some s' ->
  deferredModules s' !! k = None /\ importCount k s' = importCount k s.
Proof.
  intros Hk Ho. revert s Hk; induction tr as [|ev tr IH]; intros s Hk; cbn [run]; intros H.
  - now simplify_eq.
  - destruct (step groups cfg s ev) as [s1|] eqn:E; [| discriminate].
    destruct (step_removed_key groups cfg s s1 ev k Hk Ho E) as [Hk1 Hc1].
    destruct (IH s1 Hk1 H) as [Hk' Hc']. split; [exact Hk' | congruence].
Qed.

(** X18: Once a load of a group is fulfilled its key is out of the registry for
    good, and when the key names no member of [Object.prototype] the guard
    stays closed: whatever happens afterwards, visibility callbacks of the
    group included, no further load of the key is issued. *)
Theorem loaded_key_never_reloaded
    (s s1 s2 : state) (n : nat) (m : moduleNs) (k : string) (tr : list event) :
  imports s !! n = Some k ->
  JsObject.objectPrototype k = None ->
  step groups cfg s (Settle n (Fulfilled m)) = Some s1 ->
  run groups cfg s1 tr = Some s2 ->
  deferredModules s2 !! k = None /\ importCount k s2 = importCount k s1.
Proof.
  intros Hn Ho Hstep Hrun. apply (run_removed_key tr s1 s2 k); [| exact Ho | exact Hrun].
  cbn [step] in Hstep. rewrite Hn in Hstep.
  case_bool_decide as Hd; [discriminate |]. simplify_eq.
  destruct (settle_fields groups k (Fulfilled m) (markSettled n s)) as (_ & _ & _ & _ & ->).
  apply lookup_delete_eq.
Qed.

Lemma step_imports_length (s s' : state) (ev : event) :
  step groups cfg s ev = Some s' ->
  List.length (imports s') <= List.length (imports s) + visibleCount [ev].
Proof.
  destruct ev as [|k e|n r]; cbn [step visibleCount]; intros H.
  - simplify_eq.
    destruct (docShift_fields groups (elements (listeners s)) s) as (_ & _ & -> & _). lia.
  - case_bool_decide as Hd; [| discriminate]. simplify_eq.
    destruct (onVisible_fields cfg k (dropWatch (k, e) s)) as (_ & _ & _ & _ & ->).
    destruct (issues cfg k (dropWatch (k, e) s)); cbn [imports dropWatch];
      [rewrite length_app; cbn |]; lia.
  - destruct (imports s !! n) as [k|]; [| discriminate].
    case_bool_decide as Hd; [discriminate |]. simplify_eq.
    destruct (settle_fields groups k r (markSettled n s)) as (_ & -> & _). cbn. lia.
Qed.

Lemma visibleCount_cons (ev : event) (tr : list event) :
  visibleCount (ev :: tr) = visibleCount [ev] + visibleCount tr.
Proof. destruct ev; reflexivity. Qed.

(** X19: A deferred module is loaded only because an element reported visible:
    there are never more loads than visibility callbacks have run, so
    [docShift] signals and settlements alone load nothing. *)
Theorem no_load_without_visibility (tr : list event) (s : state) :
  run groups cfg (start groups) tr = Some s ->
  List.length (imports s) <= visibleCount tr.
Proof.
  assert (H : forall s0, run groups cfg s0 tr = Some s ->
                List.length (imports s) <= List.length (imports s0) + visibleCount tr).
  { induction tr as [|ev tr IH]; intros s0; cbn [run]; intros H.
    - simplify_eq. cbn. lia.
    - destruct (step groups cfg s0 ev) as [s1|] eqn:E; [| discriminate].
      apply step_imports_length in E. apply IH in H.
      rewrite visibleCount_cons. lia. }
  intros Hrun. apply H in Hrun. cbn in Hrun. exact Hrun.
Qed.

Lemma docShift_watch_keys (ks : list string) (s : state) (w : string * element) :
  w ∈ watches (foldl (fun s k => watchModules groups k s) s ks) ->
  w ∈ watches s \/ w.1 ∈ ks.
Proof.
  revert s; induction ks as [|k ks IH]; intros s; cbn [foldl]; [now left |].
  intros H. apply IH in H as [H | H]; [| right; apply elem_of_cons; now right].
  unfold watchModules in H.
  destruct (isVisible_fold k (elementsOf groups k) (markFired k s))
    as (_ & _ & _ & _ & Hw).
  cbn zeta in Hw. rewrite Hw in H. cbn [watches markFired] in H.
  apply elem_of_app in H as [H | H]; [now left |].
  right. apply elem_of_cons. left.
  apply list_elem_of_In, in_map_iff in H as [e [<- _]]. reflexivity.
Qed.

Lemma removeOne_subset (w x : string * element) (ws : list (string * element)) :
  x ∈ removeOne w ws -> x ∈ ws.
Proof.
  induction ws as [|y ws IH]; cbn [removeOne]; [easy |].
  case_decide as Hy; intros Hx; [apply elem_of_cons; now right |].
  apply elem_of_cons in Hx as [-> | Hx]; apply elem_of_cons;
    [now left | right; now apply IH].
Qed.

Lemma step_withinGroups (s s' : state) (ev : event) :
  withinGroups groups s /\ (forall w, w ∈ watches s -> w.1 ∈ dom groups) ->
  step groups cfg s ev = Some s' ->
  withinGroups groups s' /\ (forall w, w ∈ watches s' -> w.1 ∈ dom groups).
Proof.
  intros [(Hd & Hl & Hi) Hw] H.
  pose proof (step_listeners groups cfg s s' ev H) as Hsub.
  unfold withinGroups. destruct ev as [|k e|n r]; cbn [step] in H.
  - simplify_eq. split.
    + destruct (docShift_fields groups (elements (listeners s)) s) as (-> & -> & -> & _).
      auto.
    + intros w Hin. apply docShift_watch_keys in Hin as [Hin | Hin]; [now apply Hw |].
      apply Hl. now apply elem_of_elements.
  - case_bool_decide as Hin; [| discriminate]. simplify_eq.
    destruct (onVisible_fields cfg k (dropWatch (k, e) s)) as (Hdm & _ & _ & Hws & Him).
    cbn [deferredModules dropWatch imports watches] in Hdm, Him, Hws.
    split; [split; [now rewrite Hdm |]; split; [now transitivity (listeners s) |] |].
    + intros k' Hk'. rewrite Him in Hk'.
      destruct (issues cfg k (dropWatch (k, e) s)); [| now apply Hi].
      apply elem_of_app in Hk' as [Hk' | Hk']; [now apply Hi |].
      apply list_elem_of_singleton in Hk'. subst k'.
      now apply (Hw (k, e)).
    + intros w. rewrite Hws. intros Hr. apply Hw. now apply removeOne_subset in Hr.
  - destruct (imports s !! n) as [k|]; [| discriminate].
    case_bool_decide as Hin; [discriminate |]. simplify_eq.
    destruct (settle_fields groups k r (markSettled n s)) as (_ & Him & _ & Hws & Hdm).
    cbn [deferredModules markSettled imports watches] in Hdm, Him, Hws.
    split; [| now rewrite Hws].
    split; [| split; [now transitivity (listeners s) | now rewrite Him]].
    intros k' els. rewrite Hdm. destruct r; [| apply Hd].
    intros [_ Hk']%lookup_delete_Some. now apply Hd.
Qed.

(** X21: The registry only loses entries: at any time each entry it holds is an
    entry of the scanner's mapping with the same elements, and only keys of
    that mapping are ever subscribed or loaded. *)
Theorem run_stays_within_groups (tr : list event) (s : state) :
  run groups cfg (start groups) tr = Some s -> withinGroups groups s.
Proof.
  assert (H : forall s0,
                withinGroups groups s0 /\ (forall w, w ∈ watches s0 -> w.1 ∈ dom groups) ->
                run groups cfg s0 tr = Some s ->
                withinGroups groups s /\ (forall w, w ∈ watches s -> w.1 ∈ dom groups)).
  { induction tr as [|ev tr IH]; intros s0 H0; cbn [run]; intros H.
    - now simplify_eq.
    - destruct (step groups cfg s0 ev) as [s1|] eqn:E; [| discriminate].
      apply (IH s1); [now apply (step_withinGroups s0 s1 ev) | exact H]. }
  intros Hrun. apply (H (start groups)); [| exact Hrun].
  unfold withinGroups, start. cbn. split; [split; [auto |]; split; [done |] |].
  - intros k Hk. now apply not_elem_of_nil in Hk.
  - intros w Hk. now apply not_elem_of_nil in Hk.
Qed.

Lemma filter_key_snoc_ne (k k' : string) (ks : list string) :
  k <> k' -> filter (fun x => x = k) (ks ++ [k']) = filter (fun x => x = k) ks.
Proof.
  intros Hne. rewrite filter_app, filter_cons, filter_nil.
  case_decide; [congruence | apply app_nil_r].
Qed.

(** X22: Groups do not interfere: a visibility callback or a settlement of one
    group leaves the registry entry, the subscription and the counts of
    loads and handler invocations of every other group as they are. *)
Theorem groups_do_not_interfere (s s' : state) (ev : event) (k k' : string) :
  eventKey s ev = Some k' ->
  k <> k' ->
  step groups cfg s ev = Some s' ->
  deferredModules s' !! k = deferredModules s !! k
  /\ (k ∈ listeners s' <-> k ∈ listeners s)
  /\ importCount k s' = importCount k s
  /\ firedCount k s' = firedCount k s.
Proof.
  intros Hev Hne H. unfold importCount, firedCount.
  destruct ev as [|k0 e|n r]; cbn [eventKey] in Hev; [discriminate | |]; cbn [step] in H.
  - injection Hev as ->.
    case_bool_decide as Hw; [| discriminate]. simplify_eq.
    destruct (onVisible_fields cfg k' (dropWatch (k', e) s)) as (-> & -> & -> & _ & ->).
    cbn [deferredModules dropWatch imports listeners fired].
    split; [reflexivity |]. split.
    + destruct (aborts cfg k' (dropWatch (k', e) s)); [reflexivity |].
      rewrite elem_of_difference, elem_of_singleton. tauto.
    + split; [| reflexivity].
      destruct (issues cfg k' (dropWatch (k', e) s)); [| reflexivity].
      now rewrite filter_key_snoc_ne.
  - rewrite Hev in H. case_bool_decide as Hw; [discriminate |]. simplify_eq.
    destruct (settle_fields groups k' r (markSettled n s)) as (-> & -> & -> & _ & ->).
    cbn [deferredModules markSettled imports listeners fired].
    split; [| repeat split; auto].
    destruct r; [| reflexivity]. now apply lookup_delete_ne.
Qed.

Lemma watchModules_watches (k0 k : string) (s : state) :
  k <> k0 ->
  filter (fun w : string * element => w.1 = k) (watches (watchModules groups k0 s))
  = filter (fun w : string * element => w.1 = k) (watches s).
Proof.
  intros Hne. unfold watchModules.
  destruct (isVisible_fold k0 (elementsOf groups k0) (markFired k0 s))
    as (_ & _ & _ & _ & ->).
  cbn [watches markFired]. rewrite filter_app.
  assert (H : filter (fun w : string * element => w.1 = k)
                (map (fun e => (k0, e)) (elementsOf groups k0)) = []).
  { induction (elementsOf groups k0) as [|e els IH]; [reflexivity |].
    cbn [map]. rewrite filter_cons. cbn [fst]. case_decide; [congruence | exact IH]. }
  rewrite H. apply app_nil_r.
Qed.

Lemma docShift_watches (ks : list string) (k : string) (s : state) :
  k ∉ ks ->
  filter (fun w : string * element => w.1 = k)
    (watches (foldl (fun s k0 => watchModules groups k0 s) s ks))
  = filter (fun w : string * element => w.1 = k) (watches s).
Proof.
  revert s; induction ks as [|k0 ks IH]; intros s Hk; [reflexivity |].
  apply not_elem_of_cons in Hk as [Hne Hk].
  cbn [foldl]. rewrite (IH _ Hk). now apply watchModules_watches.
Qed.

Lemma removeOne_other (w : string * element) (k : string) (ws : list (string * element)) :
  w.1 <> k ->
  filter (fun x : string * element => x.1 = k) (removeOne w ws)
  = filter (fun x : string * element => x.1 = k) ws.
Proof.
  intros Hne. induction ws as [|x ws IH]; [reflexivity |].
  cbn [removeOne]. case_decide as Hx.
  - subst x. rewrite filter_cons. case_decide; [congruence | reflexivity].
  - rewrite !filter_cons. case_decide; [now rewrite IH | exact IH].
Qed.

Lemma removeOne_same (w : string * element) (ws : list (string * element)) :
  w ∈ ws ->
  S (List.length (filter (fun x : string * element => x.1 = w.1) (removeOne w ws)))
  = List.length (filter (fun x : string * element => x.1 = w.1) ws).
Proof.
  induction ws as [|x ws IH]; intros Hin; [now apply not_elem_of_nil in Hin |].
  cbn [removeOne]. case_decide as Hx.
  - subst x. rewrite filter_cons. case_decide; [reflexivity | congruence].
  - apply elem_of_cons in Hin as [Hin | Hin]; [congruence |].
    rewrite !filter_cons. case_decide; cbn [List.length]; rewrite <- (IH Hin); reflexivity.
Qed.

Lemma step_pending_bound (s s' : state) (ev : event) (k : string) :
  k ∉ listeners s ->
  step groups cfg s ev = Some s' ->
  importCount k s' + watchCount k s' <= importCount k s + watchCount k s.
Proof.
  intros Hk. unfold importCount, watchCount.
  destruct ev as [|k0 e|n r]; cbn [step]; intros H.
  - simplify_eq.
    rewrite (docShift_watches (elements (listeners s)) k s);
      [| now rewrite elem_of_elements].
    destruct (docShift_fields groups (elements (listeners s)) s) as (_ & _ & -> & _).
    lia.
  - case_bool_decide as Hw; [| discriminate]. simplify_eq.
    destruct (onVisible_fields cfg k0 (dropWatch (k0, e) s)) as (_ & _ & _ & -> & ->).
    cbn [deferredModules dropWatch imports watches].
    destruct (decide (k0 = k)) as [-> | Hne].
    + pose proof (removeOne_same (k, e) (watches s) Hw) as Hr. cbn [fst] in Hr.
      destruct (issues cfg k (dropWatch (k, e) s)).
      * rewrite filter_app, length_app, filter_cons, filter_nil.
        case_decide; cbn [List.length]; lia.
      * lia.
    + rewrite (removeOne_other (k0, e) k (watches s)); [| exact Hne].
      destruct (issues cfg k0 (dropWatch (k0, e) s)); [| lia].
      rewrite filter_key_snoc_ne; [lia | congruence].
  - destruct (imports s !! n) as [k0|]; [| discriminate].
    case_bool_decide as Hw; [discriminate |]. simplify_eq.
    destruct (settle_fields groups k0 r (markSettled n s)) as (_ & -> & _ & -> & _).
    cbn [markSettled imports watches]. lia.
Qed.

(** X20: Once the handler of a group is unsubscribed no new visibility check of
    the group is started, so from then on the group is loaded at most once
    more for every callback that is still pending. *)
Theorem loads_bounded_by_pending_callbacks
    (tr : list event) (s s' : state) (k : string) :
  k ∉ listeners s ->
  run groups cfg s tr = Some s' ->
  importCount k s' <= importCount k s + watchCount k s.
Proof.
  revert s; induction tr as [|ev tr IH]; intros s Hk; cbn [run]; intros H.
  - simplify_eq. lia.
  - destruct (step groups cfg s ev) as [s1|] eqn:E; [| discriminate].
    pose proof (step_pending_bound s s1 ev k Hk E) as Hb.
    assert (Hk1 : k ∉ listeners s1).
    { intros Hin. apply Hk. now apply (step_listeners groups cfg s s1 ev E). }
    pose proof (IH s1 Hk1 H). lia.
Qed.

End Group.

Lemma loaded_key_never_reloaded_witness :
  let K := "./lazy.mjs" in
  let s1 := Inputs.stateAfter
              [DocShift; Visible K 1; Settle 0 (Fulfilled Inputs.plainModule)] in
  let s2 := Inputs.stateAfter
              [DocShift; Visible K 1; Settle 0 (Fulfilled Inputs.plainModule);
               Visible K 2] in
  deferredModules s2 !! K = None /\ importCount K s2 = importCount K s1.
Proof.
  cbn zeta.
  apply (loaded_key_never_reloaded Inputs.oneGroup Inputs.sourceEnv
           (Inputs.stateAfter [DocShift; Visible "./lazy.mjs" 1]) _ _
           0 Inputs.plainModule "./lazy.mjs" [Visible "./lazy.mjs" 2]);
    vm_compute; reflexivity.
Defined.

(** A key that names a member of [Object.prototype]: the guard reads the
    inherited member once the own entry is deleted, so the callback of the
    second element loads the module again. *)
Example inherited_key_reloaded :
  let G : gmap string (list element) := {[ "constructor" := [1; 2] ]} in
  let s := Inputs.stateAfterIn G
             [DocShift; Visible "constructor" 1;
              Settle 0 (Fulfilled Inputs.plainModule); Visible "constructor" 2] in
  deferredModules s !! "constructor" = None
  /\ imports s = ["constructor"; "constructor"].
Proof. vm_compute. split; reflexivity. Qed.

Lemma loads_bounded_by_pending_callbacks_witness :
  let K := "./lazy.mjs" in
  let s := Inputs.stateAfter [DocShift; Visible K 1] in
  let s' := Inputs.stateAfter [DocShift; Visible K 1; Visible K 2; DocShift] in
  importCount K s' <= importCount K s + watchCount K s.
Proof.
  cbn zeta.
  apply (loads_bounded_by_pending_callbacks Inputs.oneGroup Inputs.sourceEnv
           [Visible "./lazy.mjs" 2; DocShift]).
  - intros H. apply elem_of_elements in H. vm_compute in H.
    now apply not_elem_of_nil in H.
  - vm_compute. reflexivity.
Defined.

Lemma no_load_without_visibility_witness :
  List.length (imports (Inputs.stateAfter
                          [DocShift; DocShift; Visible "./lazy.mjs" 1; DocShift]))
  <= visibleCount [DocShift; DocShift; Visible "./lazy.mjs" 1; DocShift].
Proof.
  apply (no_load_without_visibility Inputs.oneGroup Inputs.sourceEnv
           [DocShift; DocShift; Visible "./lazy.mjs" 1; DocShift]).
  vm_compute. reflexivity.
Defined.

Lemma run_stays_within_groups_witness :
  withinGroups Inputs.oneGroup
    (Inputs.stateAfter
       [DocShift; Visible "./lazy.mjs" 1; Settle 0 (Fulfilled Inputs.plainModule)]).
Proof.
  apply (run_stays_within_groups Inputs.oneGroup Inputs.sourceEnv
           [DocShift; Visible "./lazy.mjs" 1; Settle 0 (Fulfilled Inputs.plainModule)]).
  vm_compute. reflexivity.
Defined.

Lemma groups_do_not_interfere_witness :
  let G : gmap string (list element) := {[ "./a.mjs" := [1]; "./b.mjs" := [2] ]} in
  let s := Inputs.stateAfterIn G [DocShift] in
  let s' := Inputs.stateAfterIn G [DocShift; Visible "./b.mjs" 2] in
  deferredModules s' !! "./a.mjs" = deferredModules s !! "./a.mjs"
  /\ ("./a.mjs" ∈ listeners s' <-> "./a.mjs" ∈ listeners s)
  /\ importCount "./a.mjs" s' = importCount "./a.mjs" s
  /\ firedCount "./a.mjs" s' = firedCount "./a.mjs" s.
Proof.
  cbn zeta.
  apply (groups_do_not_interfere {[ "./a.mjs" := [1]; "./b.mjs" := [2] ]}
           Inputs.sourceEnv _ _ (Visible "./b.mjs" 2) "./a.mjs" "./b.mjs");
    [reflexivity | discriminate | vm_compute; reflexivity].
Defined.

End LazyRunsFacts.
